(** * Pile capacity calculator: the capacity engine of [app.py]

    A shallow embedding of [calculate_3d_embedment_eb] and
    [calculate_capacity], and the properties of the engine's specification
    stated and settled on it.

    Numbers.  The floats the engine is given (diameter, length, reduction
    factor, the attributes of a unit) are finite, and are modelled by exact
    rationals [Q]: rounding is abstracted away.  [float("inf")], which the
    code itself produces for the deepest bottom, is kept as a value of its
    own ([PInf]).  [np.pi] is the rational number the double
    3.141592653589793 denotes.  Rational results are compared with [==]
    ([Qeq]).

    Objects.  A geological unit is a Python dict with the keys [name],
    [top_depth], [skin_friction], [end_bearing]; [calculate_capacity] adds
    the key [bottom_depth] to the dicts it is given.  Dicts are reached
    through references, so the caller's dicts live in a store and the
    argument [units] is a list of references into it. *)

From Stdlib Require Import QArith Qround Qminmax Lqa Lia Sorted.
From stdpp Require Import base tactics option list functions strings.

Local Open Scope Q_scope.

(** ** Floats *)

(** A float that may be [float("inf")]. *)
Inductive ext : Type :=
  | Fin (q : Q)
  | PInf.

Definition Qltb (x y : Q) : bool := negb (Qle_bool y x).

(** [a < b] *)
Definition ext_ltb (a b : ext) : bool :=
  match a, b with
  | Fin x, Fin y => Qltb x y
  | Fin _, PInf => true
  | PInf, _ => false
  end.

(** [a <= b] *)
Definition ext_leb (a b : ext) : bool :=
  match a, b with
  | Fin x, Fin y => Qle_bool x y
  | _, PInf => true
  | PInf, Fin _ => false
  end.

(** [a - q] for a finite [q] *)
Definition ext_sub (a : ext) (q : Q) : ext :=
  match a with
  | Fin x => Fin (x - q)
  | PInf => PInf
  end.

Definition ext_lt (a b : ext) : Prop := ext_ltb a b = true.
Definition ext_le (a b : ext) : Prop := ext_leb a b = true.

#[global] Instance Qeq_decision (x y : Q) : Decision (x == y) := Qeq_dec x y.

(** [np.pi] *)
Definition np_pi : Q := 884279719003555 # 281474976710656.

(** ** Geological units *)

Record Unit : Type := mkUnit {
  name : string;
  top_depth : Q;
  skin_friction : Q;
  end_bearing : Q;
  bottom_depth : option ext   (* the key is absent until line 241/243 sets it *)
}.

Definition set_bottom_depth (u : Unit) (b : ext) : Unit :=
  {| name := name u; top_depth := top_depth u;
     skin_friction := skin_friction u; end_bearing := end_bearing u;
     bottom_depth := Some b |}.

(** ** [calculate_3d_embedment_eb] *)

Module Embedment.

(** How one iteration of the [for] loop ends. *)
Inductive control : Type :=
  | Break
  | Return (effective_EB : Q)
  | Continue (previous_EB : Q).

(** [unit_EB > previous_EB and unit_EB > 0] *)
Definition stronger (unit_EB previous_EB : Q) : bool :=
  Qltb previous_EB unit_EB && Qltb 0 unit_EB.

(** Lines 184-195: the toe is within this unit. *)
Definition toe_within (toe_depth : ext) (embed_length previous_EB : Q)
    (unit_top unit_EB : Q) : Q :=
  let embed_depth := ext_sub toe_depth unit_top in
  if ext_ltb embed_depth (Fin embed_length) then
    if stronger unit_EB previous_EB then previous_EB else 0
  else
    if stronger unit_EB previous_EB then unit_EB else unit_EB.

(** Lines 197-212: the toe is below this unit; the new [previous_EB]. *)
Definition toe_below (embed_length previous_EB : Q)
    (unit_top unit_EB : Q) (unit_bottom : ext) : Q :=
  let embed_in_unit := ext_sub unit_bottom unit_top in
  if ext_leb (Fin embed_length) embed_in_unit then
    if stronger unit_EB previous_EB then unit_EB else unit_EB
  else
    if stronger unit_EB previous_EB then
      if ext_leb (Fin embed_length) embed_in_unit then unit_EB
      else previous_EB
    else unit_EB.

(** The loop body, lines 171-212. *)
Definition body (toe_depth : ext) (embed_length previous_EB : Q)
    (unit : Unit) (unit_bottom : ext) : control :=
  let unit_top := top_depth unit in
  let unit_EB := end_bearing unit in
  if ext_ltb toe_depth (Fin unit_top) then Break
  else if ext_leb (Fin unit_top) toe_depth && ext_ltb toe_depth unit_bottom
  then Return (toe_within toe_depth embed_length previous_EB unit_top unit_EB)
  else if ext_leb unit_bottom toe_depth
  then Continue (toe_below embed_length previous_EB unit_top unit_EB unit_bottom)
  else Continue previous_EB.

(** [sorted_units[i + 1]["top_depth"]] if there is a next unit, else
    [float("inf")]; [rest] is [sorted_units[i+1:]]. *)
Definition bottom_of (rest : list Unit) : ext :=
  match rest with
  | next :: _ => Fin (top_depth next)
  | [] => PInf
  end.

(** The [for] loop from [sorted_units[i:]] on, and the [return] after it. *)
Fixpoint loop (toe_depth : ext) (embed_length previous_EB : Q)
    (sorted_units : list Unit) : Q :=
  match sorted_units with
  | [] => previous_EB
  | unit :: rest =>
      match body toe_depth embed_length previous_EB unit (bottom_of rest) with
      | Break => previous_EB
      | Return effective_EB => effective_EB
      | Continue previous_EB' => loop toe_depth embed_length previous_EB' rest
      end
  end.

Definition calculate_3d_embedment_eb (toe_depth : ext) (diameter : Q)
    (sorted_units : list Unit) : Q :=
  let embed_length := 3 * diameter in
  let previous_EB := 0 in
  loop toe_depth embed_length previous_EB sorted_units.

(** Each unit with the bottom the loop derives for it. *)
Fixpoint layers (sorted_units : list Unit) : list (Unit * ext) :=
  match sorted_units with
  | [] => []
  | unit :: rest => (unit, bottom_of rest) :: layers rest
  end.


(** The toe is at or below both the top and the bottom of a unit. *)
Definition passed_through (toe_depth : ext) (l : Unit * ext) : Prop :=
  ext_le (Fin (top_depth (fst l))) toe_depth /\ ext_le (snd l) toe_depth.

End Embedment.

(** ** Exceptions *)

Inductive exn : Type :=
  | KeyError (key : string).

Inductive result (A : Type) : Type :=
  | Ok (a : A)
  | Raise (e : exn).
Arguments Ok {A} a.
Arguments Raise {A} e.

Definition bind {A B : Type} (m : result A) (k : A -> result B) : result B :=
  match m with
  | Ok a => k a
  | Raise e => Raise e
  end.

Notation "'let*' x ':=' m 'in' k" := (bind m (fun x => k))
  (at level 10, x name, m at level 100, k at level 200).

(** ** The read-only part of [calculate_capacity], lines 245-289

    Nothing is written to a dict after line 243, so this part is given the
    dicts that [sorted_units] refers to, in order. *)

Module Engine.

(** The two scanning loops, lines 256-259 and 270-273:
    the first unit with [top_depth <= depth < bottom_depth].  The chained
    comparison reads [bottom_depth] only when [top_depth <= depth]. *)
Fixpoint find_unit (depth : Q) (sorted_units : list Unit)
    : result (option Unit) :=
  match sorted_units with
  | [] => Ok None
  | unit :: rest =>
      if Qle_bool (top_depth unit) depth then
        match bottom_depth unit with
        | None => Raise (KeyError "bottom_depth")
        | Some unit_bottom =>
            if ext_ltb (Fin depth) unit_bottom then Ok (Some unit)
            else find_unit depth rest
        end
      else find_unit depth rest
  end.

Definition increment : Q := 1 # 2.

(** [int(np.ceil(length / increment))] *)
Definition segments (length : Q) : Z := Qceiling (length / increment).

Definition seg_top (seg : nat) : Q := inject_Z (Z.of_nat seg) * increment.
Definition seg_bot (length : Q) (seg : nat) : Q :=
  Qmin (inject_Z (Z.of_nat (seg + 1)) * increment) length.
Definition seg_mid (length : Q) (seg : nat) : Q :=
  (seg_top seg + seg_bot length seg) / 2.
Definition seg_len (length : Q) (seg : nat) : Q :=
  seg_bot length seg - seg_top seg.

(** One iteration of the segment loop, lines 250-263. *)
Definition friction_step (perimeter length : Q) (sorted_units : list Unit)
    (total_friction : Q) (seg : nat) : result Q :=
  let* current_unit := find_unit (seg_mid length seg) sorted_units in
  match current_unit with
  | Some unit =>
      let sf := skin_friction unit in
      let seg_friction := sf * perimeter * seg_len length seg in
      Ok (total_friction + seg_friction)
  | None => Ok total_friction
  end.

(** [for seg in ...] over the segments still to do. *)
Fixpoint friction_loop (perimeter length : Q) (sorted_units : list Unit)
    (total_friction : Q) (segs : list nat) : result Q :=
  match segs with
  | [] => Ok total_friction
  | seg :: segs' =>
      let* total_friction' :=
        friction_step perimeter length sorted_units total_friction seg in
      friction_loop perimeter length sorted_units total_friction' segs'
  end.

(** Lines 246-263: the skin friction component. *)
Definition skin_friction_component (diameter length : Q)
    (sorted_units : list Unit) : result Q :=
  let perimeter := np_pi * diameter in
  friction_loop perimeter length sorted_units 0
    (seq 0 (Z.to_nat (segments length))).

(** Lines 266-286: the end bearing component. *)
Definition end_bearing_component (diameter length : Q)
    (sorted_units : list Unit) (three_d_embed skin_friction_only : bool)
    : result Q :=
  let area_base := np_pi * (diameter / 2) ^ 2 in
  if negb skin_friction_only then
    let toe_depth := length in
    let* found := find_unit toe_depth sorted_units in
    let toe_unit :=
      match found with
      | Some unit => Some unit
      | None => last sorted_units
      end in
    match toe_unit with
    | Some unit =>
        let effective_EB :=
          if three_d_embed
          then Embedment.calculate_3d_embedment_eb
                 (Fin toe_depth) diameter sorted_units
          else end_bearing unit in
        Ok (effective_EB * area_base)
    | None => Ok 0
    end
  else Ok 0.

(** Lines 245-289. *)
Definition capacity_of_profile (diameter length : Q)
    (sorted_units : list Unit) (reduction_factor : Q)
    (three_d_embed skin_friction_only : bool) : result Q :=
  let* total_friction :=
    skin_friction_component diameter length sorted_units in
  let* end_bearing :=
    end_bearing_component diameter length sorted_units
      three_d_embed skin_friction_only in
  Ok ((total_friction + end_bearing) * reduction_factor).

End Engine.

(** ** The store, and [calculate_capacity] as a whole *)

(** The caller's dicts are named by locations; every location names one
    dict.  [Dummy] names the dict that line 231 builds. *)
Definition loc : Type := nat.

Inductive ref : Type :=
  | Caller (l : loc)
  | Dummy.

#[global] Instance ref_eq_dec : EqDecision ref.
Proof. solve_decision. Defined.

#[global] Instance Caller_inj : Inj (=) (=) Caller.
Proof. intros x y [= ->]. done. Qed.

Abbreviation heap := (loc -> Unit).
Abbreviation objects := (ref -> Unit).

Module Profile.

(** [sorted(units, key=...)]: Python's sort is stable, and so is this
    insertion sort; an element goes before the first one whose key is not
    smaller than its own. *)
Fixpoint insert_by {A : Type} (key : A -> Q) (x : A) (l : list A) : list A :=
  match l with
  | [] => [x]
  | y :: l' =>
      if Qltb (key y) (key x) then y :: insert_by key x l' else x :: l
  end.

Definition sorted {A : Type} (key : A -> Q) (l : list A) : list A :=
  foldr (insert_by key) [] l.

(** The dict literal of lines 231-236. *)
Definition dummy_unit : Unit :=
  {| name := "Dummy"; top_depth := 0; skin_friction := 0;
     end_bearing := 0; bottom_depth := None |}.

(** The objects the call can reach, at its start. *)
Definition objects_of (h : heap) : objects :=
  fun r => match r with Caller l => h l | Dummy => dummy_unit end.

(** Lines 227-237. *)
Definition sort_and_pad (s : objects) (units : list loc)
    : list ref * objects :=
  let sorted_units := sorted (fun r => top_depth (s r)) (Caller <$> units) in
  match sorted_units with
  | first :: _ =>
      if Qltb 0 (top_depth (s first))
      then (Dummy :: sorted_units, <[Dummy := dummy_unit]> s)
      else (sorted_units, s)
  | [] => (sorted_units, s)
  end.

(** [sorted_units[i + 1]["top_depth"]], or [float("inf")] at the last
    index; [rest] is [sorted_units[i+1:]]. *)
Definition next_top (s : objects) (rest : list ref) : ext :=
  match rest with
  | next :: _ => Fin (top_depth (s next))
  | [] => PInf
  end.

(** Lines 239-243, from index [i] on; [sorted_units] is what is left of
    the list at [i].  Each assignment writes into the dict itself. *)
Fixpoint assign_bottom_depths (s : objects) (sorted_units : list ref)
    : objects :=
  match sorted_units with
  | [] => s
  | r :: rest =>
      assign_bottom_depths
        (<[r := set_bottom_depth (s r) (next_top s rest)]> s) rest
  end.

(** Lines 226-243. *)
Definition normalize (s : objects) (units : list loc)
    : list ref * objects :=
  let '(sorted_units, s1) := sort_and_pad s units in
  (sorted_units, assign_bottom_depths s1 sorted_units).

(** The dicts a list of references leads to. *)
Definition deref (s : objects) (rs : list ref) : list Unit := s <$> rs.

End Profile.

(** [calculate_capacity]: the value returned or the exception raised, and
    the caller's dicts as the call leaves them. *)
Definition calculate_capacity (h : heap) (diameter length : Q)
    (units : list loc) (reduction_factor : Q)
    (three_d_embed skin_friction_only : bool) : result Q * heap :=
  let '(sorted_units, s) := Profile.normalize (Profile.objects_of h) units in
  (Engine.capacity_of_profile diameter length (Profile.deref s sorted_units)
     reduction_factor three_d_embed skin_friction_only,
   fun l => s (Caller l)).

(** The dicts of [sorted_units] as line 243 leaves them. *)
Definition profile_of (h : heap) (units : list loc) : list Unit :=
  let '(sorted_units, s) := Profile.normalize (Profile.objects_of h) units in
  Profile.deref s sorted_units.

(** A heap holding the given dicts at locations 0, 1, ... *)
Definition heap_of (us : list Unit) : heap :=
  fun l => nth l us Profile.dummy_unit.

Definition unit_ (top sf eb : Q) : Unit :=
  {| name := "Unit"; top_depth := top; skin_friction := sf;
     end_bearing := eb; bottom_depth := None |}.


(** ** The vocabulary of the specification *)

Module Spec.

(** [depth] lies in the half-open interval [top_depth, bottom_depth). *)
Definition contains (u : Unit) (depth : Q) : Prop :=
  top_depth u <= depth
  /\ exists b, bottom_depth u = Some b /\ ext_lt (Fin depth) b.

(** [layerAt(depth)]: the layer whose interval contains [depth]; the
    deepest layer when no interval does. *)
Definition layer_at (profile : list Unit) (depth : Q) (u : Unit) : Prop :=
  (u ∈ profile /\ contains u depth)
  \/ ((forall v, v ∈ profile -> ~ contains v depth)
      /\ last profile = Some u).

(** The invariants of a normalized profile. *)
Definition ascending (profile : list Unit) : Prop :=
  StronglySorted (fun u v => top_depth u <= top_depth v) profile.

Definition chained (profile : list Unit) : Prop :=
  Forall (fun l => bottom_depth (fst l) = Some (snd l))
    (Embedment.layers profile).

Definition from_surface (profile : list Unit) : Prop :=
  match profile with
  | u :: _ => top_depth u <= 0
  | [] => True
  end.

Definition normalized (profile : list Unit) : Prop :=
  ascending profile /\ chained profile /\ from_surface profile.



Definition Qsum (f : nat -> Q) (ks : list nat) : Q :=
  foldr (fun k acc => f k + acc) 0 ks.



(** Two dicts with the same supplied keys. *)
Definition same_record (u v : Unit) : Prop :=
  name u = name v /\ top_depth u = top_depth v
  /\ skin_friction u = skin_friction v /\ end_bearing u = end_bearing v.







(** [capacity(length1) <= capacity(length2)] *)
Definition non_decreasing (capacity : Q -> result Q)
    (length1 length2 : Q) : Prop :=
  exists c1 c2,
    capacity length1 = Ok c1 /\ capacity length2 = Ok c2 /\ c1 <= c2.

(** The caller's layer records are as they were. *)
Definition inputs_unchanged (h h' : heap) (units : list loc) : Prop :=
  Forall (fun l => h' l = h l) units.


(** With only skin friction asked for and non-negative skin frictions,
    the capacity does not decrease as the length grows. *)
Definition monotone_in_length (h : heap) (diameter : Q) (units : list loc)
    (reduction_factor : Q) (three_d_embed : bool) : Prop :=
  (forall l, l ∈ units -> 0 <= skin_friction (h l)) ->
  forall length1 length2,
    0 <= length1 -> length1 <= length2 ->
    non_decreasing
      (fun length =>
         fst (calculate_capacity h diameter length units reduction_factor
                three_d_embed true))
      length1 length2.

End Spec.

(** ** Sample inputs *)


Definition uniform_profile : list Unit :=
  [set_bottom_depth (unit_ 0 10 500) PInf].

Definition two_records : heap := heap_of [unit_ 5 0 400; unit_ 2 10 0].

Definition one_record : heap := heap_of [unit_ 0 10 500].

Definition weak_below : heap := heap_of [unit_ 0 100 0; unit_ (2 # 10) 0 0].

From stdpp Require Import pretty sorting gmap.
Local Open Scope Q_scope.

(** ** The profile by position *)

(** Each dict of the list with the bottom derived at its own position:
    what lines 239-243 leave when no dict occurs twice. *)
Definition positional (s : objects) (rs : list ref) : list Unit :=
  (fun l => set_bottom_depth (fst l) (snd l))
    <$> Embedment.layers (Profile.deref s rs).

(** ** The profile of a list of records, without the store *)

(** Line 228-237 on records: the dummy goes in front when the shallowest
    record lies below the surface. *)
Definition pad_records (sorted_units : list Unit) : list Unit :=
  match sorted_units with
  | first :: _ =>
      if Qltb 0 (top_depth first)
      then Profile.dummy_unit :: sorted_units else sorted_units
  | [] => sorted_units
  end.

(** Lines 226-243 on records that are not shared: sort, pad, and give each
    record the bottom of its position. *)
Definition pure_profile (records : list Unit) : list Unit :=
  (fun l => set_bottom_depth (fst l) (snd l))
    <$> Embedment.layers (pad_records (Profile.sorted top_depth records)).

(** ** The session's list of units: [rename_units], and the handlers of
    the Remove and Add Unit buttons *)

(** [u["name"] = n] *)
Definition set_name (u : Unit) (n : string) : Unit :=
  {| name := n; top_depth := top_depth u;
     skin_friction := skin_friction u; end_bearing := end_bearing u;
     bottom_depth := bottom_depth u |}.

(** [f"Unit {i}"] *)
Definition unit_name (i : nat) : string := "Unit " +:+ pretty i.

(** Lines 47-48, with [enumerate] at [i]. *)
Fixpoint rename_from (i : nat) (h : heap) (units : list loc) : heap :=
  match units with
  | [] => h
  | l :: rest =>
      rename_from (S i) (<[l := set_name (h l) (unit_name i)]> h) rest
  end.

(** [rename_units], on the list [st.session_state.units]. *)
Definition rename_units (h : heap) (units : list loc) : heap :=
  rename_from 1 h units.

(** The dict literal of lines 405-410. *)
Definition added_unit (count : nat) (last_top : Q) : Unit :=
  {| name := unit_name (count + 1); top_depth := last_top + 10;
     skin_friction := 0; end_bearing := 0; bottom_depth := None |}.

(** Lines 403-412, the body of the Add Unit button: [None] is the
    [IndexError] of [units[-1]] on an empty list; [fresh] is where the new
    dict is put. *)
Definition add_unit (fresh : loc) (h : heap) (units : list loc)
    : option (heap * list loc) :=
  match last units with
  | None => None
  | Some l =>
      let last_top := top_depth (h l) in
      let h1 := <[fresh := added_unit (length units) last_top]> h in
      let units' := units ++ [fresh] in
      Some (rename_units h1 units', units')
  end.

(** Lines 353-354 and 391-394: the index the loop over the units leaves
    in [remove_unit_index]; [clicked i] is what [st.button] returns for
    unit [i]. *)
Definition remove_unit_index (clicked : nat -> bool) (units : list loc)
    : option nat :=
  foldl
    (fun remove_unit_index i =>
       if bool_decide (1 < length units)%nat then
         if clicked i then Some i else remove_unit_index
       else remove_unit_index)
    None (seq 0 (length units)).

(** Lines 397-399: [None] is the [IndexError] of [pop]. *)
Definition handle_remove (remove_unit_index : option nat) (h : heap)
    (units : list loc) : option (heap * list loc) :=
  match remove_unit_index with
  | None => Some (h, units)
  | Some i =>
      if bool_decide (i < length units)%nat then
        let units' := delete i units in
        Some (rename_units h units', units')
      else None
  end.

(** Unit tops in list order do not decrease. *)
Definition depth_ordered (h : heap) (units : list loc) : Prop :=
  StronglySorted (fun l l' => top_depth (h l) <= top_depth (h l')) units.

(** The keys of a dict other than its name. *)
Definition same_but_name (u v : Unit) : Prop :=
  top_depth u = top_depth v /\ skin_friction u = skin_friction v
  /\ end_bearing u = end_bearing v /\ bottom_depth u = bottom_depth v.

(** ** The sweep over diameters and lengths, lines 418-443 *)

(** [np.arange(start, stop, step)] for a positive [step]:
    [ceil((stop - start) / step)] values [start + i * step]. *)
Definition np_arange (start stop step : Q) : list Q :=
  (fun i => start + inject_Z (Z.of_nat i) * step)
    <$> seq 0 (Z.to_nat (Qceiling ((stop - start) / step))).

(** Lines 433-443, the inner loop: the capacities of one diameter, the
    heap going from one call to the next. *)
Fixpoint curve (h : heap) (d : Q) (lengths : list Q) (units : list loc)
    (reduction_factor : Q) (three_d_embed skin_friction_only : bool)
    : result (list Q) * heap :=
  match lengths with
  | [] => (Ok [], h)
  | L :: lengths' =>
      let '(cap, h1) :=
        calculate_capacity h d L units reduction_factor
          three_d_embed skin_friction_only in
      match cap with
      | Raise e => (Raise e, h1)
      | Ok cap =>
          let '(capacities, h2) :=
            curve h1 d lengths' units reduction_factor
              three_d_embed skin_friction_only in
          (match capacities with
           | Ok capacities => Ok (cap :: capacities)
           | Raise e => Raise e
           end, h2)
      end
  end.

(** Lines 432-449, the outer loop: one trace per diameter, the diameter
    with its capacities. *)
Fixpoint curves (h : heap) (diameters lengths : list Q) (units : list loc)
    (reduction_factor : Q) (three_d_embed skin_friction_only : bool)
    : result (list (Q * list Q)) * heap :=
  match diameters with
  | [] => (Ok [], h)
  | d :: diameters' =>
      let '(capacities, h1) :=
        curve h d lengths units reduction_factor
          three_d_embed skin_friction_only in
      match capacities with
      | Raise e => (Raise e, h1)
      | Ok capacities =>
          let '(traces, h2) :=
            curves h1 diameters' lengths units reduction_factor
              three_d_embed skin_friction_only in
          (match traces with
           | Ok traces => Ok ((d, capacities) :: traces)
           | Raise e => Raise e
           end, h2)
      end
  end.

(** Lines 418-423. *)
Definition sweep_diameters (diameter_min diameter_max : Q) : list Q :=
  np_arange diameter_min (diameter_max + (1 # 10000)) (3 # 10).

Definition sweep_lengths (length_min length_max : Z) : list Q :=
  np_arange (inject_Z length_min) (inject_Z length_max + (1 # 10000)) 2.

(** Lines 418-449: the traces of the figure. *)
Definition sweep (h : heap) (diameter_min diameter_max : Q)
    (length_min length_max : Z) (units : list loc) (reduction_factor : Q)
    (three_d_embed skin_friction_only : bool)
    : result (list (Q * list Q)) * heap :=
  curves h (sweep_diameters diameter_min diameter_max)
    (sweep_lengths length_min length_max) units reduction_factor
    three_d_embed skin_friction_only.

(** A trace holds, for each length, what a call on the heap [h] returns. *)
Definition trace_of_calls (h : heap) (lengths : list Q) (units : list loc)
    (reduction_factor : Q) (three_d_embed skin_friction_only : bool)
    (d : Q) (trace : Q * list Q) : Prop :=
  fst trace = d
  /\ Forall2
       (fun L cap =>
          fst (calculate_capacity h d L units reduction_factor
                 three_d_embed skin_friction_only) = Ok cap)
       lengths (snd trace).

(** A length of whole segments, and a length not below it. *)
Definition whole_then (length1 length2 : Q) : Prop :=
  (exists z, length1 == inject_Z z * (1 # 2)) /\ length1 <= length2.

(** ** [load_csv], lines 51-122, and the upload, lines 297-299

    The function is modelled from the list [lines] on (line 57): reading
    and decoding the file is left out.  Strings are the UTF-8 bytes of the
    text, which splitting at commas respects.  The dicts the loop creates
    are allocated in the store at [next], [next + 1], ... *)

Module Session.

(** [st.session_state], after [initialize_session_state]. *)
Record t : Type := mk {
  units : list loc;
  diameter_min : Q;
  diameter_max : Q;
  length_min : Z;
  length_max : Z;
  reduction_factor : Q;
  three_d_embed : bool;
  skin_friction_only : bool
}.

Definition set_units (v : list loc) (st : t) : t :=
  mk v (diameter_min st) (diameter_max st) (length_min st) (length_max st)
    (reduction_factor st) (three_d_embed st) (skin_friction_only st).

Definition set_diameter_min (v : Q) (st : t) : t :=
  mk (units st) v (diameter_max st) (length_min st) (length_max st)
    (reduction_factor st) (three_d_embed st) (skin_friction_only st).

Definition set_diameter_max (v : Q) (st : t) : t :=
  mk (units st) (diameter_min st) v (length_min st) (length_max st)
    (reduction_factor st) (three_d_embed st) (skin_friction_only st).

Definition set_length_min (v : Z) (st : t) : t :=
  mk (units st) (diameter_min st) (diameter_max st) v (length_max st)
    (reduction_factor st) (three_d_embed st) (skin_friction_only st).

Definition set_length_max (v : Z) (st : t) : t :=
  mk (units st) (diameter_min st) (diameter_max st) (length_min st) v
    (reduction_factor st) (three_d_embed st) (skin_friction_only st).

Definition set_reduction_factor (v : Q) (st : t) : t :=
  mk (units st) (diameter_min st) (diameter_max st) (length_min st)
    (length_max st) v (three_d_embed st) (skin_friction_only st).

Definition set_three_d_embed (v : bool) (st : t) : t :=
  mk (units st) (diameter_min st) (diameter_max st) (length_min st)
    (length_max st) (reduction_factor st) v (skin_friction_only st).

Definition set_skin_friction_only (v : bool) (st : t) : t :=
  mk (units st) (diameter_min st) (diameter_max st) (length_min st)
    (length_max st) (reduction_factor st) (three_d_embed st) v.

End Session.

Module Csv.
Import Stdlib.Strings.Ascii.

(** The built-ins of Python that [load_csv] calls on strings. *)
Class Builtins : Type := {
  strip : string -> string;        (* [s.strip()] *)
  lower : string -> string;        (* [s.lower()] *)
  float : string -> option Q       (* [float(s)], a finite float;
                                      [None]: ValueError *)
}.

(** [int(x)] of a float: rounding towards zero. *)
Definition int (x : Q) : Z :=
  if Qle_bool 0 x then Qfloor x else Qceiling x.

(** [line.split(",")] *)
Fixpoint split (line : string) : list string :=
  match line with
  | EmptyString => [EmptyString]
  | String c rest =>
      if Ascii.eqb c ","%char then EmptyString :: split rest
      else
        match split rest with
        | part :: parts => String c part :: parts
        | [] => [String c EmptyString]
        end
  end.

(** Lines 71-72: [line.split(",", 1)] under [if "," in line]; [None] when
    the line has no comma. *)
Fixpoint split_1 (line : string) : option (string * string) :=
  match line with
  | EmptyString => None
  | String c rest =>
      if Ascii.eqb c ","%char then Some (EmptyString, rest)
      else
        match split_1 rest with
        | Some (key, value) => Some (String c key, value)
        | None => None
        end
  end.

(** What [st.warning] and [st.error] are called for. *)
Inductive message : Type :=
  | skipping_unit        (* line 92 *)
  | no_units_found       (* line 119 *)
  | failed_to_load.      (* line 122 *)

Inductive Mode : Type := parameters | units_section.

(** The locals of the loop of lines 65-92, the store, and the messages. *)
Record frame : Type := mkFrame {
  params : gmap string string;
  units : list loc;
  mode : Mode;
  skip_next_line : bool;
  store : heap;
  next : loc;
  messages : list message
}.

(** Lines 60-63. *)
Definition start (next : loc) (h : heap) : frame :=
  mkFrame ∅ [] parameters false h next [].

Section Load.
Context `{builtins : Builtins}.

(** Lines 66-92: one turn of the loop. *)
Definition parse_line (f : frame) (line : string) : frame :=
  if decide (strip line = EmptyString) then
    mkFrame (params f) (units f) units_section true
      (store f) (next f) (messages f)
  else
    match mode f with
    | parameters =>
        match split_1 line with
        | Some (key, value) =>
            mkFrame (<[strip key := strip value]> (params f)) (units f)
              (mode f) (skip_next_line f) (store f) (next f) (messages f)
        | None => f
        end
    | units_section =>
        if skip_next_line f then
          mkFrame (params f) (units f) (mode f) false
            (store f) (next f) (messages f)
        else
          match split line with
          | [name; top_depth; skin_friction; end_bearing] =>
              match float (strip top_depth), float (strip skin_friction),
                    float (strip end_bearing) with
              | Some top_depth, Some skin_friction, Some end_bearing =>
                  mkFrame (params f) (units f ++ [next f])
                    (mode f) (skip_next_line f)
                    (<[next f :=
                         mkUnit (strip name) top_depth skin_friction
                           end_bearing None]> (store f))
                    (S (next f)) (messages f)
              | _, _, _ =>
                  mkFrame (params f) (units f) (mode f) (skip_next_line f)
                    (store f) (next f) (messages f ++ [skipping_unit])
              end
          | _ => f
          end
    end.

(** Lines 65-92. *)
Definition parse (next : loc) (h : heap) (lines : list string) : frame :=
  foldl parse_line (start next h) lines.

(** The session state when an assignment of lines 95-104 is left:
    [Failed] when the conversion raised. *)
Inductive outcome : Type :=
  | Done (st : Session.t)
  | Failed (st : Session.t).

Definition and_then (o : outcome) (k : Session.t -> outcome) : outcome :=
  match o with
  | Done st => k st
  | Failed st => Failed st
  end.

(** [if key in params: st.session_state.<key> = convert(float(params[key]))] *)
Definition assign {A : Type} (params : gmap string string) (key : string)
    (convert : Q -> A) (set : A -> Session.t -> Session.t)
    (st : Session.t) : outcome :=
  match params !! key with
  | None => Done st
  | Some value =>
      match float value with
      | Some x => Done (set (convert x) st)
      | None => Failed st
      end
  end.

(** [if key in params: st.session_state.<key> =
       params[key].strip().lower() == "true"] *)
Definition assign_flag (params : gmap string string) (key : string)
    (set : bool -> Session.t -> Session.t) (st : Session.t) : Session.t :=
  match params !! key with
  | None => st
  | Some value => set (bool_decide (lower (strip value) = "true")) st
  end.

(** Lines 95-112. *)
Definition update_parameters (params : gmap string string)
    (st : Session.t) : outcome :=
  and_then (assign params "diameter_min" id Session.set_diameter_min st)
    (fun st =>
  and_then (assign params "diameter_max" id Session.set_diameter_max st)
    (fun st =>
  and_then (assign params "length_min" int Session.set_length_min st)
    (fun st =>
  and_then (assign params "length_max" int Session.set_length_max st)
    (fun st =>
  and_then
    (assign params "reduction_factor" id Session.set_reduction_factor st)
    (fun st =>
  Done
    (assign_flag params "skin_friction_only" Session.set_skin_friction_only
       (assign_flag params "three_d_embed" Session.set_three_d_embed
          st))))))).

(** Lines 53-122, from line 65 on: the store, the session state and the
    messages shown.  No exception leaves the function. *)
Definition load_csv (next : loc) (h : heap) (st : Session.t)
    (lines : list string) : heap * Session.t * list message :=
  let f := parse next h lines in
  match update_parameters (params f) st with
  | Failed st => (store f, st, messages f ++ [failed_to_load])
  | Done st =>
      match units f with
      | [] => (store f, st, messages f ++ [no_units_found])
      | _ :: _ =>
          (rename_units (store f) (units f), Session.set_units (units f) st,
           messages f)
      end
  end.

(** Lines 297-299. *)
Definition upload (next : loc) (h : heap) (st : Session.t)
    (lines : list string) : heap * Session.t * list message :=
  let '(h, st, shown) := load_csv next h st lines in
  (rename_units h (Session.units st), st, shown).

End Load.

End Csv.

Module CsvFile.
Import Csv.

Section Layout.
Context `{builtins : Builtins}.

(** A line the loop takes for the end of the parameters (line 66). *)
Definition blank (line : string) : Prop := strip line = EmptyString.


(** A row of four fields of which the last three are numbers: the record
    line 84 builds from it. *)
Definition unit_row (row : string) (u : Unit) : Prop :=
  ~ blank row
  /\ exists field1 field2 field3 field4,
       split row = [field1; field2; field3; field4]
       /\ float (strip field2) = Some (top_depth u)
       /\ float (strip field3) = Some (skin_friction u)
       /\ float (strip field4) = Some (end_bearing u)
       /\ name u = strip field1
       /\ bottom_depth u = None.

(** What the loop keeps from one turn to the next: the dicts it has
    created are [next0], [next0 + 1], ..., in this order; no older dict is
    written; the only message is the one of line 92. *)
Definition loop_invariant (next0 : loc) (h : heap) (f : frame) : Prop :=
  units f = seq next0 (next f - next0)
  /\ (next0 <= next f)%nat
  /\ (forall l, (l < next0)%nat -> store f l = h l)
  /\ Forall (eq skipping_unit) (messages f).

End Layout.

(** A sample of the built-ins, for ASCII text and unsigned integers. *)
Fixpoint lstrip (s : string) : string :=
  match s with
  | String c rest => if Ascii.is_space c then lstrip rest else s
  | EmptyString => s
  end.

Fixpoint digits (acc : nat) (s : string) : option nat :=
  match s with
  | EmptyString => Some acc
  | String c rest =>
      match Ascii.is_nat c with
      | Some d => digits (10 * acc + d) rest
      | None => None
      end
  end.

Definition sample_builtins : Builtins :=
  {| strip := fun s => String.rev (lstrip (String.rev (lstrip s)));
     lower := id;
     float := fun s =>
       match s with
       | EmptyString => None
       | _ => (fun n => inject_Z (Z.of_nat n)) <$> digits 0 s
       end |}.

Definition sample_session : Session.t :=
  Session.mk [0%nat] (3 # 10) (12 # 10) 10 40 1 false false.

Definition sample_file : list string :=
  ["parameter,value"; "diameter_min,1"; "three_d_embed,True"; "";
   "name,top_depth,skin_friction,end_bearing";
   "Sand, 0, 10, 100"; "Clay,5,20,200"].

End CsvFile.

(** * Properties *)

(** ** Comparisons *)

Lemma Qltb_lt (x y : Q) : Qltb x y = true <-> x < y.
Proof.
  unfold Qltb. rewrite negb_true_iff, <- not_true_iff_false, Qle_bool_iff.
  split; [apply Qnot_le_lt | apply Qlt_not_le].
Qed.

Lemma Qltb_ge (x y : Q) : Qltb x y = false <-> y <= x.
Proof.
  unfold Qltb. rewrite negb_false_iff. apply Qle_bool_iff.
Qed.


Lemma ext_le_not_lt (a b : ext) : ext_le a b -> ext_ltb b a = false.
Proof.
  unfold ext_le. destruct a as [x|], b as [y|]; simpl; try done.
  rewrite Qle_bool_iff, Qltb_ge. done.
Qed.


Lemma stronger_true (unit_EB previous_EB : Q) :
  Embedment.stronger unit_EB previous_EB = true
  <-> previous_EB < unit_EB /\ 0 < unit_EB.
Proof.
  unfold Embedment.stronger. rewrite andb_true_iff, !Qltb_lt. done.
Qed.


(** ** The walk of [calculate_3d_embedment_eb] *)

Section Walk.
Import Embedment.

Variable toe_depth : ext.
Variable embed_length : Q.

Lemma body_passed previous_EB unit unit_bottom :
  passed_through toe_depth (unit, unit_bottom) ->
  body toe_depth embed_length previous_EB unit unit_bottom =
    Continue (toe_below embed_length previous_EB
                (top_depth unit) (end_bearing unit) unit_bottom).
Proof.
  intros [Htop Hbot]; simpl in *. unfold body.
  rewrite (ext_le_not_lt _ _ Htop), (ext_le_not_lt _ _ Hbot).
  rewrite andb_false_r. unfold ext_le in Hbot. by rewrite Hbot.
Qed.

Lemma body_within previous_EB unit unit_bottom :
  ext_le (Fin (top_depth unit)) toe_depth ->
  ext_lt toe_depth unit_bottom ->
  body toe_depth embed_length previous_EB unit unit_bottom =
    Return (toe_within toe_depth embed_length previous_EB
              (top_depth unit) (end_bearing unit)).
Proof.
  intros Htop Hbot. unfold body.
  rewrite (ext_le_not_lt _ _ Htop).
  unfold ext_le in Htop. unfold ext_lt in Hbot. by rewrite Htop, Hbot.
Qed.




End Walk.

(** ** C1 and C2: the 3D embedment rule *)





(** ** Looking a depth up in a profile *)

Section Lookup.
Import Engine Spec.

Lemma chained_cons u rest :
  chained (u :: rest) <->
  bottom_depth u = Some (Embedment.bottom_of rest) /\ chained rest.
Proof. unfold chained. simpl. by rewrite Forall_cons. Qed.

Lemma ascending_cons u rest :
  ascending (u :: rest) ->
  Forall (fun v => top_depth u <= top_depth v) rest /\ ascending rest.
Proof. intros H. apply StronglySorted_inv in H. tauto. Qed.

Lemma find_unit_head depth u rest :
  chained (u :: rest) ->
  find_unit depth (u :: rest) =
    if Qle_bool (top_depth u) depth
         && ext_ltb (Fin depth) (Embedment.bottom_of rest)
    then Ok (Some u) else find_unit depth rest.
Proof.
  intros [Hb _]%chained_cons. simpl. rewrite Hb.
  by destruct (Qle_bool _ _).
Qed.

Lemma contains_head depth u rest :
  chained (u :: rest) ->
  contains u depth <->
  Qle_bool (top_depth u) depth
    && ext_ltb (Fin depth) (Embedment.bottom_of rest) = true.
Proof.
  intros [Hb _]%chained_cons. unfold contains.
  rewrite andb_true_iff, Qle_bool_iff, Hb. split.
  - intros [Ht (b & [= <-] & Hlt)]. done.
  - intros [Ht Hlt]. split; [done|]. by eexists.
Qed.

(** In a normalized profile the scan finds the layer that contains the
    depth, whichever it is. *)
Lemma find_unit_contains depth profile u :
  chained profile -> ascending profile ->
  u ∈ profile -> contains u depth ->
  find_unit depth profile = Ok (Some u).
Proof.
  induction profile as [|v rest IH]; intros Hc Ha Hin Hu.
  - by apply elem_of_nil in Hin.
  - rewrite (find_unit_head _ _ _ Hc).
    destruct (Qle_bool _ _ && ext_ltb _ _) eqn:Hv.
    + (* the head contains the depth: [u] cannot lie deeper *)
      apply elem_of_cons in Hin as [-> | Hin]; [done|].
      exfalso. apply andb_true_iff in Hv as [_ Hlt].
      apply ascending_cons in Ha as [_ Ha].
      destruct rest as [|w rest']; [by apply elem_of_nil in Hin|].
      simpl in Hlt. apply Qltb_lt in Hlt.
      assert (top_depth w <= top_depth u).
      { apply elem_of_cons in Hin as [-> | Hin]; [apply Qle_refl|].
        apply ascending_cons in Ha as [Hall _].
        rewrite Forall_forall in Hall. by apply Hall. }
      destruct Hu as [Hu _]. lra.
    + apply elem_of_cons in Hin as [-> | Hin].
      * apply (contains_head _ _ _ Hc) in Hu. congruence.
      * apply chained_cons in Hc as [_ Hc].
        apply ascending_cons in Ha as [_ Ha]. by apply IH.
Qed.

Lemma find_unit_none depth profile :
  chained profile ->
  (forall v, v ∈ profile -> ~ contains v depth) ->
  find_unit depth profile = Ok None.
Proof.
  induction profile as [|v rest IH]; intros Hc Hno; [done|].
  rewrite (find_unit_head _ _ _ Hc).
  destruct (Qle_bool _ _ && ext_ltb _ _) eqn:Hv.
  - exfalso. apply (Hno v); [by left|]. by apply (contains_head _ _ _ Hc).
  - apply chained_cons in Hc as [_ Hc]. apply IH; [done|].
    intros w Hw. apply Hno. by right.
Qed.

(** The intervals of a chained profile cover everything from the first
    top down. *)
Lemma chained_covers depth profile u0 rest0 :
  chained profile -> profile = u0 :: rest0 -> top_depth u0 <= depth ->
  exists u, u ∈ profile /\ contains u depth.
Proof.
  revert u0 rest0. induction profile as [|v rest IH];
    intros u0 rest0 Hc [= <- <-] Htop.
  destruct (ext_ltb (Fin depth) (Embedment.bottom_of rest)) eqn:Hlt.
  - exists v. split; [by left|]. apply (contains_head _ _ _ Hc).
    apply andb_true_iff. by rewrite Qle_bool_iff.
  - destruct rest as [|w rest']; [discriminate|].
    simpl in Hlt. apply Qltb_ge in Hlt.
    apply chained_cons in Hc as [_ Hc].
    destruct (IH w rest' Hc eq_refl Hlt) as (u & Hin & Hu).
    exists u. split; [by right | done].
Qed.

(** What the scan returns is a layer [layerAt] may return, or nothing
    when [layerAt] falls back. *)
Lemma find_unit_layer_at depth profile u :
  chained profile -> ascending profile ->
  layer_at profile depth u ->
  find_unit depth profile = Ok (Some u)
  \/ (find_unit depth profile = Ok None /\ last profile = Some u).
Proof.
  intros Hc Ha [[Hin Hu] | [Hno Hlast]].
  - left. by apply find_unit_contains.
  - right. split; [by apply find_unit_none | done].
Qed.

(** With every [bottom_depth] set, the scan raises nothing. *)
Lemma find_unit_ok depth profile :
  Forall (fun u => is_Some (bottom_depth u)) profile ->
  exists found, find_unit depth profile = Ok found
    /\ forall u, found = Some u -> u ∈ profile.
Proof.
  induction 1 as [|v rest [b Hb] _ (found & IH & Hin)]; cbn [find_unit].
  - exists None. done.
  - rewrite Hb. destruct (Qle_bool _ _); [destruct (ext_ltb (Fin depth) b)|].
    + exists (Some v). split; [done|]. intros u [= <-]. by left.
    + exists found. split; [done|]. intros u Hu. right. by apply Hin.
    + exists found. split; [done|]. intros u Hu. right. by apply Hin.
Qed.

Lemma chained_bottoms profile :
  chained profile -> Forall (fun u => is_Some (bottom_depth u)) profile.
Proof.
  induction profile as [|v rest IH]; [constructor|].
  intros [Hb Hc]%chained_cons. constructor; [by eexists | by apply IH].
Qed.

End Lookup.

(** ** The segment loop *)

Section Segments.
Import Engine.

Lemma inject_nat_nonneg (k : nat) : 0 <= inject_Z (Z.of_nat k).
Proof. unfold Qle. simpl. lia. Qed.

Lemma Qhalve (x : Q) : x / 2 == x * (1 # 2).
Proof. reflexivity. Qed.

Lemma seg_top_nonneg seg : 0 <= seg_top seg.
Proof.
  unfold seg_top, increment. pose proof (inject_nat_nonneg seg). lra.
Qed.

Lemma seg_bot_nonneg length seg : 0 <= length -> 0 <= seg_bot length seg.
Proof.
  intros HL. unfold seg_bot, increment. apply Q.min_glb; [|done].
  pose proof (inject_nat_nonneg (seg + 1)). lra.
Qed.

Lemma seg_mid_nonneg length seg : 0 <= length -> 0 <= seg_mid length seg.
Proof.
  intros HL. unfold seg_mid. rewrite Qhalve.
  pose proof (seg_top_nonneg seg). pose proof (seg_bot_nonneg _ seg HL).
  lra.
Qed.

Lemma friction_loop_app perimeter length profile total segs1 segs2 :
  friction_loop perimeter length profile total (segs1 ++ segs2) =
    let* total' := friction_loop perimeter length profile total segs1 in
    friction_loop perimeter length profile total' segs2.
Proof.
  revert total. induction segs1 as [|seg segs1 IH]; intros total; [done|].
  simpl. destruct (friction_step _ _ _ _ _); simpl; [apply IH | done].
Qed.

(** With every [bottom_depth] set, a step adds the friction of some unit
    of the profile, or nothing. *)
Lemma friction_step_ok perimeter length profile total seg :
  Forall (fun u => is_Some (bottom_depth u)) profile ->
  exists sf,
    friction_step perimeter length profile total seg =
      Ok (total + sf * perimeter * seg_len length seg)
    /\ (sf = 0 \/ exists u, u ∈ profile /\ sf = skin_friction u)
    \/ friction_step perimeter length profile total seg = Ok total.
Proof.
  intros Hb. unfold friction_step.
  destruct (find_unit_ok (seg_mid length seg) _ Hb) as (found & -> & Hin).
  simpl. destruct found as [u|].
  - exists (skin_friction u). left. split; [done|]. right. exists u. auto.
  - exists 0. by right.
Qed.

Lemma friction_loop_ok perimeter length profile total segs :
  Forall (fun u => is_Some (bottom_depth u)) profile ->
  exists total', friction_loop perimeter length profile total segs = Ok total'.
Proof.
  intros Hb. revert total. induction segs as [|seg segs IH]; intros total.
  - by exists total.
  - simpl.
    destruct (friction_step_ok perimeter length profile total seg Hb)
      as (sf & [[-> _] | ->]); simpl; apply IH.
Qed.

Lemma friction_loop_nil perimeter length total segs :
  friction_loop perimeter length [] total segs = Ok total.
Proof. induction segs; [done | by simpl]. Qed.




End Segments.

(** ** C3 and C4: the two components on a normalized profile *)




(** C4.  With [three_d_embed] and [skin_friction_only] both false, the end
    bearing component is pi * (diameter / 2)^2 times the end bearing of the
    layer whose interval [top_depth, bottom_depth) contains
    [toe_depth = length], and of the deepest layer when no interval
    contains it. *)
Theorem simple_mode_end_bearing
    (profile : list Unit) (diameter length : Q) :
  Spec.ascending profile -> Spec.chained profile ->
  exists bearing,
    Engine.end_bearing_component diameter length profile false false
      = Ok bearing
    /\ forall u, Spec.layer_at profile length u ->
         bearing == np_pi * (diameter / 2) ^ 2 * end_bearing u.
Proof.
  intros Ha Hc. unfold Engine.end_bearing_component. simpl negb. cbv iota.
  destruct (find_unit_ok length profile (chained_bottoms _ Hc))
    as (found & Hfound & _).
  rewrite Hfound. cbn [bind].
  destruct found as [u0|].
  - eexists. split; [reflexivity|]. intros u Hu.
    destruct (find_unit_layer_at _ _ _ Hc Ha Hu) as [Heq | [Heq _]];
      rewrite Hfound in Heq; [|discriminate].
    injection Heq as ->. ring.
  - destruct (last profile) as [u0|] eqn:Hlast.
    + eexists. split; [reflexivity|]. intros u Hu.
      destruct (find_unit_layer_at _ _ _ Hc Ha Hu) as [Heq | [_ Heq]];
        [rewrite Hfound in Heq; discriminate|].
      rewrite Hlast in Heq. injection Heq as ->. ring.
    + eexists. split; [reflexivity|]. intros u Hu.
      destruct (find_unit_layer_at _ _ _ Hc Ha Hu) as [Heq | [_ Heq]];
        [rewrite Hfound in Heq | rewrite Hlast in Heq]; discriminate.
Qed.

Lemma simple_mode_end_bearing_witness :
  exists bearing,
    Engine.end_bearing_component (6 # 10) 10 uniform_profile false false
      = Ok bearing
    /\ bearing == np_pi * ((6 # 10) / 2) ^ 2 * 500.
Proof.
  destruct (simple_mode_end_bearing uniform_profile (6 # 10) 10)
    as (bearing & Hb & Hat).
  - repeat constructor.
  - repeat constructor.
  - exists bearing. split; [exact Hb|].
    apply (Hat (set_bottom_depth (unit_ 0 10 500) PInf)).
    left. split; [by left|]. split; [vm_compute; discriminate|].
    exists PInf. split; reflexivity.
Defined.

(** ** Sorting *)

Section Sorting.
Import Profile.
Context {A : Type} (key : A -> Q).

Let le_key (x y : A) : Prop := key x <= key y.

Lemma insert_by_elem x y l : y ∈ insert_by key x l <-> y = x \/ y ∈ l.
Proof.
  induction l as [|z l IH]; simpl.
  - rewrite list_elem_of_singleton, elem_of_nil. tauto.
  - destruct (Qltb (key z) (key x)); rewrite !elem_of_cons, ?IH; tauto.
Qed.

Lemma sorted_elem y l : y ∈ sorted key l <-> y ∈ l.
Proof.
  induction l as [|z l IH]; [done|].
  unfold sorted in *. simpl. rewrite insert_by_elem, elem_of_cons, IH. done.
Qed.

Lemma insert_by_perm x l : insert_by key x l ≡ₚ x :: l.
Proof.
  induction l as [|z l IH]; [done|]. simpl.
  destruct (Qltb _ _); [|done]. rewrite IH. apply Permutation_swap.
Qed.

Lemma sorted_perm l : sorted key l ≡ₚ l.
Proof.
  induction l as [|z l IH]; [done|].
  unfold sorted in *. simpl. by rewrite insert_by_perm, IH.
Qed.

Lemma insert_by_sorted x l :
  StronglySorted le_key l -> StronglySorted le_key (insert_by key x l).
Proof.
  induction l as [|z l IH]; intros Hs; simpl.
  - repeat constructor.
  - apply StronglySorted_inv in Hs as [Hs Hz].
    destruct (Qltb (key z) (key x)) eqn:Hlt.
    + apply Qltb_lt in Hlt. constructor; [by apply IH|].
      apply Forall_forall. intros y [-> | Hy]%insert_by_elem.
      * by apply Qlt_le_weak.
      * rewrite Forall_forall in Hz. by apply Hz.
    + apply Qltb_ge in Hlt. constructor; [by constructor|].
      constructor; [done|].
      eapply Forall_impl; [exact Hz|]. intros y Hy. simpl in Hy.
      unfold le_key in *. lra.
Qed.

Lemma sorted_sorted l : StronglySorted le_key (sorted key l).
Proof.
  induction l as [|z l IH]; [constructor|].
  unfold sorted in *. simpl. by apply insert_by_sorted.
Qed.



Lemma insert_by_ext (key' : A -> Q) x l :
  key x = key' x -> Forall (fun y => key y = key' y) l ->
  insert_by key x l = insert_by key' x l.
Proof.
  intros Hx. induction 1 as [|z l Hz _ IH]; [done|].
  simpl. by rewrite Hx, Hz, IH.
Qed.

Lemma sorted_ext (key' : A -> Q) l :
  Forall (fun y => key y = key' y) l -> sorted key l = sorted key' l.
Proof.
  induction 1 as [|z l Hz Hl IH]; [done|].
  unfold sorted in *. simpl. rewrite <- IH.
  apply insert_by_ext; [done|].
  apply Forall_forall. intros y Hy.
  apply (proj1 (sorted_elem y l)) in Hy.
  rewrite Forall_forall in Hl. by apply Hl.
Qed.

Lemma insert_by_fmap {B : Type} (f : B -> A) (x : B) (l : list B) :
  insert_by key (f x) (f <$> l) = f <$> insert_by (fun b => key (f b)) x l.
Proof.
  induction l as [|y l IH]; [done|]. csimpl.
  destruct (Qltb _ _); csimpl; by rewrite ?IH.
Qed.

Lemma sorted_fmap {B : Type} (f : B -> A) (l : list B) :
  sorted key (f <$> l) = f <$> sorted (fun b => key (f b)) l.
Proof.
  induction l as [|z l IH]; [done|].
  unfold sorted in *. csimpl. rewrite IH. apply insert_by_fmap.
Qed.

End Sorting.

(** ** The store *)

Section Store.
Import Profile Spec.

Lemma same_record_refl u : same_record u u.
Proof. by repeat split. Qed.

Lemma same_record_trans u v w :
  same_record u v -> same_record v w -> same_record u w.
Proof.
  intros (? & ? & ? & ?) (? & ? & ? & ?). repeat split; congruence.
Qed.

Lemma set_bottom_depth_same u b : same_record (set_bottom_depth u b) u.
Proof. by repeat split. Qed.

Lemma set_bottom_depth_eq u v b :
  same_record u v -> set_bottom_depth u b = set_bottom_depth v b.
Proof.
  intros (Hn & Ht & Hs & He). unfold set_bottom_depth.
  by rewrite Hn, Ht, Hs, He.
Qed.

Lemma assign_cons s r rest :
  assign_bottom_depths s (r :: rest) =
  assign_bottom_depths
    (<[r := set_bottom_depth (s r) (next_top s rest)]> s) rest.
Proof. done. Qed.

Lemma assign_outside rs : forall s r,
  r ∉ rs -> assign_bottom_depths s rs r = s r.
Proof.
  induction rs as [|r0 rest IH]; intros s r Hr; [done|].
  apply not_elem_of_cons in Hr as [Hne Hr].
  rewrite assign_cons, IH; [|done]. by apply fn_lookup_insert_ne.
Qed.

Lemma assign_same rs : forall s r,
  same_record (assign_bottom_depths s rs r) (s r).
Proof.
  induction rs as [|r0 rest IH]; intros s r; [apply same_record_refl|].
  rewrite assign_cons. eapply same_record_trans; [apply IH|].
  destruct (decide (r0 = r)) as [<- | Hne].
  - rewrite fn_lookup_insert. apply set_bottom_depth_same.
  - rewrite fn_lookup_insert_ne; [apply same_record_refl | done].
Qed.

Lemma assign_keeps_bottom rs : forall s r,
  is_Some (bottom_depth (s r)) ->
  is_Some (bottom_depth (assign_bottom_depths s rs r)).
Proof.
  induction rs as [|r0 rest IH]; intros s r Hs; [done|].
  rewrite assign_cons. apply IH.
  destruct (decide (r0 = r)) as [<- | Hne].
  - rewrite fn_lookup_insert. by eexists.
  - by rewrite fn_lookup_insert_ne.
Qed.

(** Every dict of the list has its [bottom_depth] afterwards. *)
Lemma assign_sets_bottom rs : forall s r,
  r ∈ rs -> is_Some (bottom_depth (assign_bottom_depths s rs r)).
Proof.
  induction rs as [|r0 rest IH]; intros s r Hr.
  - by apply elem_of_nil in Hr.
  - rewrite assign_cons. apply elem_of_cons in Hr as [-> | Hr].
    + apply assign_keeps_bottom. rewrite fn_lookup_insert. by eexists.
    + by apply IH.
Qed.

Lemma next_top_deref s rest :
  next_top s rest = Embedment.bottom_of (deref s rest).
Proof. by destruct rest. Qed.



Lemma chained_layers us :
  chained ((fun l => set_bottom_depth (fst l) (snd l))
             <$> Embedment.layers us).
Proof.
  induction us as [|u rest IH]; [constructor|].
  simpl Embedment.layers. rewrite fmap_cons. apply chained_cons.
  split; [|done]. simpl. by destruct rest.
Qed.


(** The dicts agree wherever [Q] holds and have the same supplied keys
    along the list: afterwards they agree along the list as well. *)
Lemma assign_agree rs : forall (s1 s2 : objects) (Q : ref -> Prop),
  (forall r, Q r -> s1 r = s2 r) ->
  (forall r, r ∈ rs -> same_record (s1 r) (s2 r)) ->
  forall r, r ∈ rs \/ Q r ->
    assign_bottom_depths s1 rs r = assign_bottom_depths s2 rs r.
Proof.
  induction rs as [|r0 rest IH]; intros s1 s2 Q HQ Hrs r Hr.
  - destruct Hr as [Hr | Hr]; [by apply elem_of_nil in Hr | by apply HQ].
  - rewrite !assign_cons.
    assert (Hb : next_top s1 rest = next_top s2 rest).
    { destruct rest as [|next rest']; [done|]. simpl.
      destruct (Hrs next) as (_ & -> & _); [by right; left | done]. }
    assert (Hu : set_bottom_depth (s1 r0) (next_top s1 rest)
                 = set_bottom_depth (s2 r0) (next_top s2 rest)).
    { rewrite Hb. apply set_bottom_depth_eq, Hrs. by left. }
    apply (IH _ _ (fun r => r = r0 \/ Q r)).
    + intros r' [-> | Hq].
      * by rewrite !fn_lookup_insert.
      * destruct (decide (r0 = r')) as [<- | Hne].
        -- by rewrite !fn_lookup_insert.
        -- rewrite !fn_lookup_insert_ne by done. by apply HQ.
    + intros r' Hr'. destruct (decide (r0 = r')) as [<- | Hne].
      * rewrite !fn_lookup_insert, Hu. apply same_record_refl.
      * rewrite !fn_lookup_insert_ne by done. apply Hrs. by right.
    + rewrite elem_of_cons in Hr. tauto.
Qed.

End Store.

(** ** Lines 226-243 *)

Section Normalize.
Import Profile Spec.

Variable h : heap.
Variable units : list loc.

Let supplied : list loc := sorted (fun l => top_depth (h l)) units.

Lemma sort_and_pad_spec :
  exists pad s1,
    sort_and_pad (objects_of h) units = (pad ++ (Caller <$> supplied), s1)
    /\ (forall r, s1 r = objects_of h r)
    /\ (pad = [] \/ pad = [Dummy])
    /\ (pad = [Dummy] <->
          exists l, head supplied = Some l /\ 0 < top_depth (h l)).
Proof.
  unfold sort_and_pad. rewrite sorted_fmap.
  change (sorted (fun b => top_depth (objects_of h (Caller b))) units)
    with supplied.
  destruct supplied as [|l rest] eqn:Hs.
  - exists [], (objects_of h).
    split; [done|]. split; [done|]. split; [by left|].
    split; [done|]. intros (l & Hl & _). discriminate.
  - rewrite fmap_cons. cbn [objects_of].
    destruct (Qltb 0 (top_depth (h l))) eqn:Hlt.
    + exists [Dummy], (<[Dummy := dummy_unit]> (objects_of h)).
      split; [done|]. split; [|split; [by right|]].
      * intros r. destruct (decide (Dummy = r)) as [<- | Hne].
        -- by rewrite fn_lookup_insert.
        -- by rewrite fn_lookup_insert_ne.
      * split; [|done]. intros _. exists l. split; [done|].
        by apply Qltb_lt.
    + exists [], (objects_of h).
      split; [done|]. split; [done|]. split; [by left|].
      split; [done|].
      intros (l' & [= <-] & Hl'). apply Qltb_ge in Hlt. lra.
Qed.

Lemma normalize_spec :
  exists pad s1,
    normalize (objects_of h) units =
      (pad ++ (Caller <$> supplied),
       assign_bottom_depths s1 (pad ++ (Caller <$> supplied)))
    /\ (forall r, s1 r = objects_of h r)
    /\ (pad = [] \/ pad = [Dummy])
    /\ (pad = [Dummy] <->
          exists l, head supplied = Some l /\ 0 < top_depth (h l)).
Proof.
  destruct sort_and_pad_spec as (pad & s1 & Hsp & H).
  exists pad, s1. split; [|exact H]. unfold normalize. by rewrite Hsp.
Qed.

Lemma sorted_units_origin pad r :
  pad = [] \/ pad = [Dummy] ->
  r ∈ pad ++ (Caller <$> supplied) ->
  r = Dummy \/ exists l, l ∈ units /\ r = Caller l.
Proof.
  intros Hpad [Hr | Hr]%elem_of_app.
  - left. destruct Hpad as [-> | ->].
    + by apply elem_of_nil in Hr.
    + by apply list_elem_of_singleton in Hr.
  - right. apply list_elem_of_fmap in Hr as (l & -> & Hl).
    exists l. split; [|done].
    by apply (sorted_elem (fun l => top_depth (h l)) l units).
Qed.

(** Every dict of the profile has its [bottom_depth], and is the dummy or
    one of the caller's, with the keys it came with. *)
Lemma profile_of_bottoms :
  Forall (fun u => is_Some (bottom_depth u)) (profile_of h units).
Proof.
  unfold profile_of.
  destruct normalize_spec as (pad & s1 & -> & _).
  unfold deref. apply Forall_fmap, Forall_forall. intros r Hr.
  by apply assign_sets_bottom.
Qed.

Lemma profile_of_origin :
  Forall (fun u => same_record u dummy_unit
                   \/ exists l, l ∈ units /\ same_record u (h l))
    (profile_of h units).
Proof.
  unfold profile_of.
  destruct normalize_spec as (pad & s1 & -> & Hs1 & Hpad & _).
  unfold deref. apply Forall_fmap, Forall_forall. intros r Hr. simpl.
  pose proof (assign_same (pad ++ (Caller <$> supplied)) s1 r) as Hsame.
  rewrite Hs1 in Hsame.
  destruct (sorted_units_origin pad r Hpad Hr) as [-> | (l & Hl & ->)].
  - by left.
  - right. by exists l.
Qed.

Lemma calculate_capacity_value diameter length reduction_factor
    three_d_embed skin_friction_only :
  fst (calculate_capacity h diameter length units reduction_factor
         three_d_embed skin_friction_only) =
  Engine.capacity_of_profile diameter length (profile_of h units)
    reduction_factor three_d_embed skin_friction_only.
Proof.
  unfold calculate_capacity, profile_of. by destruct (normalize _ _).
Qed.

End Normalize.

(** ** C5: the profile invariants *)

Lemma StronglySorted_weaken {A : Type} (R R' : A -> A -> Prop) (l : list A) :
  (forall x y, R x y -> R' x y) -> StronglySorted R l -> StronglySorted R' l.
Proof.
  intros HR. induction 1 as [|x l _ IH Hx]; constructor; [done|].
  eapply Forall_impl; [exact Hx|]. intros y. apply HR.
Qed.





(** ** The value of [calculate_capacity] *)

Section Capacity.
Import Engine.

Lemma end_bearing_component_ok diameter length profile
    three_d_embed skin_friction_only :
  Forall (fun u => is_Some (bottom_depth u)) profile ->
  exists bearing,
    end_bearing_component diameter length profile
      three_d_embed skin_friction_only = Ok bearing.
Proof.
  intros Hb. unfold end_bearing_component.
  destruct skin_friction_only; simpl; [by eexists|].
  destruct (find_unit_ok length profile Hb) as (found & -> & _). simpl.
  destruct found as [u|]; [by eexists|].
  destruct (last profile); by eexists.
Qed.

(** The two components never raise, and neither looks at the reduction
    factor. *)
Lemma components_ok (h : heap) units diameter length
    three_d_embed skin_friction_only :
  exists friction bearing,
    skin_friction_component diameter length (profile_of h units)
      = Ok friction
    /\ end_bearing_component diameter length (profile_of h units)
         three_d_embed skin_friction_only = Ok bearing
    /\ forall reduction_factor,
         fst (calculate_capacity h diameter length units reduction_factor
                three_d_embed skin_friction_only)
         = Ok ((friction + bearing) * reduction_factor).
Proof.
  pose proof (profile_of_bottoms h units) as Hb.
  destruct (friction_loop_ok (np_pi * diameter) length _ 0
              (seq 0 (Z.to_nat (segments length))) Hb) as [friction Hf].
  destruct (end_bearing_component_ok diameter length _
              three_d_embed skin_friction_only Hb) as [bearing He].
  exists friction, bearing. split; [done|]. split; [done|].
  intros rf. rewrite calculate_capacity_value.
  unfold capacity_of_profile, skin_friction_component.
  by rewrite Hf, He.
Qed.

End Capacity.

(** ** C6: the reduction factor *)

(** C6.  For every fixed diameter, length, layer list and flags, the total
    capacity is (skin friction component + end bearing component) *
    reduction_factor, the two components being the same for every
    reduction factor; so capacity(rf) == rf * capacity(1), for every rf. *)
Theorem capacity_linear_in_reduction_factor
    (h : heap) (diameter length : Q) (units : list loc)
    (three_d_embed skin_friction_only : bool) :
  exists friction bearing,
    Engine.skin_friction_component diameter length (profile_of h units)
      = Ok friction
    /\ Engine.end_bearing_component diameter length (profile_of h units)
         three_d_embed skin_friction_only = Ok bearing
    /\ (forall reduction_factor,
          fst (calculate_capacity h diameter length units reduction_factor
                 three_d_embed skin_friction_only)
          = Ok ((friction + bearing) * reduction_factor))
    /\ (forall reduction_factor,
          exists capacity capacity1,
            fst (calculate_capacity h diameter length units reduction_factor
                   three_d_embed skin_friction_only) = Ok capacity
            /\ fst (calculate_capacity h diameter length units 1
                      three_d_embed skin_friction_only) = Ok capacity1
            /\ capacity == reduction_factor * capacity1).
Proof.
  destruct (components_ok h units diameter length
              three_d_embed skin_friction_only)
    as (friction & bearing & Hf & He & Hc).
  exists friction, bearing. split; [done|]. split; [done|]. split; [done|].
  intros rf. exists ((friction + bearing) * rf), ((friction + bearing) * 1).
  split; [apply Hc|]. split; [apply Hc|]. ring.
Qed.

(** ** C7: invalid input *)

Section Degenerate.
Import Engine.




End Degenerate.




(** ** C9: what a call does to the caller's records *)

Section Frame.
Import Profile Spec.

(** Two heaps whose supplied records have the same supplied keys are
    normalized alike. *)
Lemma normalize_agree (h1 h2 : heap) (units : list loc) :
  (forall l, l ∈ units -> same_record (h1 l) (h2 l)) ->
  exists rs s1 s2,
    normalize (objects_of h1) units = (rs, assign_bottom_depths s1 rs)
    /\ normalize (objects_of h2) units = (rs, assign_bottom_depths s2 rs)
    /\ (forall r, s1 r = objects_of h1 r)
    /\ (forall r, s2 r = objects_of h2 r)
    /\ (forall r, r ∈ rs -> r = Dummy \/ exists l, l ∈ units /\ r = Caller l)
    /\ (forall l, l ∈ units -> Caller l ∈ rs).
Proof.
  intros Hsame.
  destruct (normalize_spec h1 units) as (pad1 & s1 & Hn1 & Hs1 & Hp1 & Hi1).
  destruct (normalize_spec h2 units) as (pad2 & s2 & Hn2 & Hs2 & Hp2 & Hi2).
  assert (Hsup : sorted (fun l => top_depth (h2 l)) units
                 = sorted (fun l => top_depth (h1 l)) units).
  { apply sorted_ext, Forall_forall. intros l Hl.
    destruct (Hsame l Hl) as (_ & -> & _). done. }
  rewrite Hsup in Hn2, Hi2.
  set (supplied := sorted (fun l => top_depth (h1 l)) units) in *.
  assert (Hhead : (exists l, head supplied = Some l /\ 0 < top_depth (h1 l))
                  <-> (exists l, head supplied = Some l
                                 /\ 0 < top_depth (h2 l))).
  { split; intros (l & Hl & Hpos); exists l; (split; [done|]);
      destruct (Hsame l) as (_ & Ht & _);
      try (by rewrite <- Ht); try (by rewrite Ht);
      apply (sorted_elem (fun l => top_depth (h1 l)) l units);
      by eapply head_Some_elem_of. }
  assert (Hpad : pad2 = pad1).
  { destruct Hp1 as [-> | ->], Hp2 as [-> | ->]; try done.
    - pose proof (proj2 Hi1 (proj2 Hhead (proj1 Hi2 eq_refl))).
      discriminate.
    - pose proof (proj2 Hi2 (proj1 Hhead (proj1 Hi1 eq_refl))).
      discriminate. }
  subst pad2.
  exists (pad1 ++ (Caller <$> supplied)), s1, s2.
  split; [done|]. split; [done|]. split; [done|]. split; [done|]. split.
  - intros r Hr. by apply (sorted_units_origin h1 units pad1).
  - intros l Hl. apply elem_of_app. right. apply list_elem_of_fmap_2.
    by apply (sorted_elem (fun l => top_depth (h1 l)) l units).
Qed.

Lemma profile_of_agree (h1 h2 : heap) (units : list loc) :
  (forall l, l ∈ units -> same_record (h1 l) (h2 l)) ->
  profile_of h1 units = profile_of h2 units.
Proof.
  intros Hsame. unfold profile_of.
  destruct (normalize_agree h1 h2 units Hsame)
    as (rs & s1 & s2 & -> & -> & Hs1 & Hs2 & Hrs & _).
  unfold deref. apply list_fmap_ext. intros i r Hi.
  apply (assign_agree rs s1 s2 (fun _ => False)); [done| |].
  - intros r' Hr'. rewrite Hs1, Hs2.
    destruct (Hrs r' Hr') as [-> | (l & Hl & ->)];
      [apply same_record_refl | by apply Hsame].
  - left. by eapply list_elem_of_lookup_2.
Qed.

(** The caller's heap after a call. *)
Lemma heap_after (h : heap) (units : list loc) diameter length
    reduction_factor three_d_embed skin_friction_only :
  exists rs s1,
    normalize (objects_of h) units = (rs, assign_bottom_depths s1 rs)
    /\ (forall r, s1 r = objects_of h r)
    /\ (forall r, r ∈ rs -> r = Dummy \/ exists l, l ∈ units /\ r = Caller l)
    /\ (forall l, l ∈ units -> Caller l ∈ rs)
    /\ forall l,
         snd (calculate_capacity h diameter length units reduction_factor
                three_d_embed skin_friction_only) l
         = assign_bottom_depths s1 rs (Caller l).
Proof.
  destruct (normalize_agree h h units) as
    (rs & s1 & _ & Hn & _ & Hs1 & _ & Hrs & Hin).
  { intros l _. apply same_record_refl. }
  exists rs, s1. repeat (split; [done|]).
  intros l. unfold calculate_capacity. by rewrite Hn.
Qed.

End Frame.

(** C9, as the code has it.  A call leaves the name, top_depth,
    skin_friction and end_bearing of every record as they were and touches
    no record outside the list, but it sets [bottom_depth] on every record
    of the list.  The value returned depends on the records through those
    four fields alone; so a repeated call returns the same value, and leaves
    the records as the first call left them. *)
Theorem capacity_call_frame
    (h : heap) (diameter length : Q) (units : list loc)
    (reduction_factor : Q) (three_d_embed skin_friction_only : bool) :
  let call (h0 : heap) :=
    calculate_capacity h0 diameter length units reduction_factor
      three_d_embed skin_friction_only in
  let h' := snd (call h) in
  (forall l, Spec.same_record (h' l) (h l))
  /\ (forall l, l ∉ units -> h' l = h l)
  /\ (forall l, l ∈ units -> is_Some (bottom_depth (h' l)))
  /\ (forall h2 : heap,
        (forall l, l ∈ units -> Spec.same_record (h2 l) (h l)) ->
        fst (call h2) = fst (call h))
  /\ fst (call h') = fst (call h)
  /\ (forall l, snd (call h') l = h' l).
Proof.
  intros call h'.
  destruct (heap_after h units diameter length reduction_factor
              three_d_embed skin_friction_only)
    as (rs & s1 & Hn & Hs1 & Hrs & Hin & Hh').
  fold (call h) in Hh'. fold h' in Hh'.
  assert (Hsame : forall l, Spec.same_record (h' l) (h l)).
  { intros l. rewrite Hh'. eapply same_record_trans; [apply assign_same|].
    rewrite Hs1. apply same_record_refl. }
  assert (Hdet : forall h2 : heap,
    (forall l, l ∈ units -> Spec.same_record (h2 l) (h l)) ->
    fst (call h2) = fst (call h)).
  { intros h2 H2. unfold call. rewrite !calculate_capacity_value.
    by rewrite (profile_of_agree h2 h units). }
  split; [done|]. split; [|split; [|split; [done|split]]].
  - intros l Hl. rewrite Hh', assign_outside; [by rewrite Hs1|].
    intros Hr. destruct (Hrs _ Hr) as [? | (l' & Hl' & [= ->])]; done.
  - intros l Hl. rewrite Hh'. by apply assign_sets_bottom, Hin.
  - apply Hdet. intros l _. apply Hsame.
  - intros l.
    destruct (normalize_agree h' h units) as
      (rs' & s1' & s1'' & Hn' & Hn'' & Hs1' & Hs1'' & Hrs' & _).
    { intros l' _. apply Hsame. }
    rewrite Hn in Hn''. injection Hn'' as <- _.
    unfold call at 1, calculate_capacity. rewrite Hn'. simpl.
    rewrite Hh'. destruct (decide (Caller l ∈ rs)) as [Hl | Hl].
    + apply (assign_agree rs s1' s1 (fun _ => False)); [done| |by left].
      intros r Hr. rewrite Hs1', Hs1.
      destruct r as [l0|]; [apply Hsame | apply same_record_refl].
    + rewrite !assign_outside by done. rewrite Hs1'. simpl.
      rewrite Hh', assign_outside by done. done.
Qed.

Lemma capacity_call_frame_witness :
  let h' := snd (calculate_capacity two_records (6 # 10) 10 [0%nat; 1%nat]
                   1 true false) in
  top_depth (h' 1%nat) = 2
  /\ fst (calculate_capacity h' (6 # 10) 10 [0%nat; 1%nat] 1 true false)
     = fst (calculate_capacity two_records (6 # 10) 10 [0%nat; 1%nat]
              1 true false).
Proof.
  intros h'.
  destruct (capacity_call_frame two_records (6 # 10) 10 [0%nat; 1%nat]
              1 true false) as (Hsame & _ & _ & _ & Hagain & _).
  split; [|exact Hagain].
  destruct (Hsame 1%nat) as (_ & Ht & _). exact Ht.
Defined.

(** The record of a one-layer list has no [bottom_depth] before the call
    and has one after it. *)
Lemma call_adds_bottom_depth :
  ~ Spec.inputs_unchanged one_record
      (snd (calculate_capacity one_record (6 # 10) 10 [0%nat] 1 false false))
      [0%nat].
Proof.
  intros H. apply Forall_cons in H as [H _].
  vm_compute in H. discriminate.
Qed.

(** ** C10: no error, no negative capacity *)

Section Signs.
Import Engine.

Lemma np_pi_pos : 0 < np_pi.
Proof. reflexivity. Qed.

Lemma area_base_nonneg diameter : 0 <= np_pi * (diameter / 2) ^ 2.
Proof.
  apply Qmult_le_0_compat; [apply Qlt_le_weak, np_pi_pos|].
  simpl. nra.
Qed.



Lemma seg_len_nonneg length seg :
  (seg < Z.to_nat (segments length))%nat -> 0 <= seg_len length seg.
Proof.
  intros Hseg. unfold seg_len, seg_bot, seg_top.
  assert (Htop : inject_Z (Z.of_nat seg) * increment <= length).
  { pose proof (Qceiling_lt (length / increment)) as Hc.
    assert (Hz : (Z.of_nat seg <= Qceiling (length / increment) - 1)%Z).
    { unfold segments in Hseg. lia. }
    rewrite Zle_Qle in Hz.
    assert (inject_Z (Z.of_nat seg) < length * 2)
      by (eapply Qle_lt_trans; [exact Hz | exact Hc]).
    unfold increment. lra. }
  assert (Hnext : inject_Z (Z.of_nat seg) * increment
                  <= inject_Z (Z.of_nat (seg + 1)) * increment).
  { assert (Hz : (Z.of_nat seg <= Z.of_nat (seg + 1))%Z) by lia.
    rewrite Zle_Qle in Hz. unfold increment. lra. }
  pose proof (Q.min_glb _ _ _ Hnext Htop). lra.
Qed.

(** With non-negative skin frictions, the loop only adds. *)
Lemma friction_loop_grows perimeter length profile :
  Forall (fun u => is_Some (bottom_depth u)) profile ->
  Forall (fun u => 0 <= skin_friction u) profile ->
  0 <= perimeter ->
  forall segs total,
    Forall (fun seg => 0 <= seg_len length seg) segs ->
    exists total',
      friction_loop perimeter length profile total segs = Ok total'
      /\ total <= total'.
Proof.
  intros Hb Hsf Hp. induction segs as [|seg segs IH]; intros total Hsegs.
  - exists total. split; [done | apply Qle_refl].
  - apply Forall_cons in Hsegs as [Hseg Hsegs]. simpl.
    destruct (friction_step_ok perimeter length profile total seg Hb)
      as (sf & [[-> Hsfo] | ->]); simpl.
    + destruct (IH (total + sf * perimeter * seg_len length seg) Hsegs)
        as (total' & -> & Hle).
      exists total'. split; [done|].
      assert (0 <= sf).
      { destruct Hsfo as [-> | (u & Hu & ->)]; [apply Qle_refl|].
        rewrite Forall_forall in Hsf. by apply Hsf. }
      assert (0 <= sf * perimeter * seg_len length seg).
      { apply Qmult_le_0_compat; [by apply Qmult_le_0_compat | done]. }
      lra.
    + by apply IH.
Qed.

Lemma segs_nonneg length (start len : nat) :
  (start + len <= Z.to_nat (segments length))%nat ->
  Forall (fun seg => 0 <= seg_len length seg) (seq start len).
Proof.
  intros H. apply Forall_forall. intros seg Hseg.
  apply list_elem_of_In, in_seq in Hseg. apply seg_len_nonneg. lia.
Qed.


(** The signs of the profile are those of the supplied records. *)
Lemma profile_of_signs (h : heap) units (field : Unit -> Q) :
  (forall u v, Spec.same_record u v -> field u = field v) ->
  field Profile.dummy_unit = 0 ->
  (forall l, l ∈ units -> 0 <= field (h l)) ->
  Forall (fun u => 0 <= field u) (profile_of h units).
Proof.
  intros Hfield Hdummy Hunits.
  eapply Forall_impl; [apply profile_of_origin|]. simpl.
  intros u [Hu | (l & Hl & Hu)]; rewrite (Hfield _ _ Hu).
  - rewrite Hdummy. apply Qle_refl.
  - by apply Hunits.
Qed.

End Signs.



(** ** C8: the capacity as the length grows *)

Section Growth.
Import Engine.

Lemma Qmin_left (x y : Q) : x <= y -> Qmin x y = x.
Proof.
  intros Hle. unfold Qmin, GenericMinMax.gmin.
  destruct (x ?= y) eqn:Hc; [done | done |].
  exfalso. apply Qgt_alt in Hc. lra.
Qed.

(** The loop looks at the length through the segment bottoms only. *)
Lemma friction_loop_same_bottoms perimeter length1 length2 profile :
  forall segs total,
    Forall (fun seg => seg_bot length1 seg = seg_bot length2 seg) segs ->
    friction_loop perimeter length1 profile total segs
    = friction_loop perimeter length2 profile total segs.
Proof.
  induction segs as [|seg segs IH]; intros total Hsegs; [done|].
  apply Forall_cons in Hsegs as [Hseg Hsegs]. simpl.
  unfold friction_step, seg_mid, seg_len. rewrite Hseg.
  destruct (find_unit _ profile) as [[u|]|]; simpl; by rewrite ?IH.
Qed.

Lemma whole_segments (m : nat) length :
  length == inject_Z (Z.of_nat m) * increment ->
  Z.to_nat (segments length) = m.
Proof.
  intros HL. unfold segments. rewrite HL.
  setoid_replace (inject_Z (Z.of_nat m) * increment / increment)
    with (inject_Z (Z.of_nat m)) using relation Qeq
    by (unfold increment; field).
  rewrite Qceiling_Z. lia.
Qed.

Lemma segments_mono length1 length2 :
  length1 <= length2 ->
  (Z.to_nat (segments length1) <= Z.to_nat (segments length2))%nat.
Proof.
  intros Hle. unfold segments.
  assert (Qceiling (length1 / increment) <= Qceiling (length2 / increment))%Z.
  { apply Qceiling_resp_le.
    change (length1 / increment) with (length1 * 2).
    change (length2 / increment) with (length2 * 2). lra. }
  lia.
Qed.

(** Below a length of [m] whole segments, the first [m] segments are the
    same for every greater length. *)
Lemma full_segments (m : nat) length1 length2 :
  length1 == inject_Z (Z.of_nat m) * increment -> length1 <= length2 ->
  Forall (fun seg => seg_bot length1 seg = seg_bot length2 seg) (seq 0 m).
Proof.
  intros HL Hle. apply Forall_forall. intros seg Hseg.
  apply list_elem_of_In, in_seq in Hseg.
  assert (Hb : inject_Z (Z.of_nat (seg + 1)) * increment <= length1).
  { assert (Hz : (Z.of_nat (seg + 1) <= Z.of_nat m)%Z) by lia.
    rewrite Zle_Qle in Hz. rewrite HL. unfold increment. lra. }
  unfold seg_bot. rewrite !Qmin_left; [done | lra | done].
Qed.

End Growth.

(** C8, as the code has it.  With only skin friction asked for, a
    non-negative diameter and reduction factor and non-negative skin
    frictions, [capacity(L1) <= capacity(L2)] for all [L1 <= L2] where [L1]
    is a whole number of 0.5 m segments. *)
Theorem capacity_grows_from_whole_segments
    (h : heap) (diameter : Q) (units : list loc) (reduction_factor : Q)
    (three_d_embed : bool) (m : nat) (length1 length2 : Q) :
  0 <= diameter -> 0 <= reduction_factor ->
  (forall l, l ∈ units -> 0 <= skin_friction (h l)) ->
  length1 == inject_Z (Z.of_nat m) * (1 # 2) -> length1 <= length2 ->
  Spec.non_decreasing
    (fun length =>
       fst (calculate_capacity h diameter length units reduction_factor
              three_d_embed true))
    length1 length2.
Proof.
  intros Hd Hrf Hsf HL Hle.
  set (profile := profile_of h units).
  pose proof (profile_of_bottoms h units) as Hb. fold profile in Hb.
  assert (Hsigns : Forall (fun u => 0 <= skin_friction u) profile).
  { apply (profile_of_signs h units skin_friction); [|done|done].
    by intros u v (_ & _ & ? & _). }
  assert (Hp : 0 <= np_pi * diameter).
  { pose proof np_pi_pos. apply Qmult_le_0_compat; lra. }
  pose proof (whole_segments m length1 HL) as Hn1.
  pose proof (segments_mono length1 length2 Hle) as Hn2.
  rewrite Hn1 in Hn2.
  destruct (friction_loop_ok (np_pi * diameter) length1 profile 0 (seq 0 m) Hb)
    as [c1 Hc1].
  destruct (friction_loop_grows (np_pi * diameter) length2 profile
              Hb Hsigns Hp
              (seq m (Z.to_nat (Engine.segments length2) - m)) c1)
    as (c2 & Hc2 & Hc12).
  { apply segs_nonneg. lia. }
  exists ((c1 + 0) * reduction_factor), ((c2 + 0) * reduction_factor).
  split; [|split].
  - rewrite calculate_capacity_value. fold profile.
    unfold Engine.capacity_of_profile, Engine.skin_friction_component.
    by rewrite Hn1, Hc1.
  - rewrite calculate_capacity_value. fold profile.
    unfold Engine.capacity_of_profile, Engine.skin_friction_component.
    replace (Z.to_nat (Engine.segments length2))
      with (m + (Z.to_nat (Engine.segments length2) - m))%nat by lia.
    rewrite seq_app, friction_loop_app. simpl "+"%nat.
    rewrite <- (friction_loop_same_bottoms _ length1 length2)
      by (by apply full_segments).
    rewrite Hc1. cbn [bind]. by rewrite Hc2.
  - assert (0 <= (c2 - c1) * reduction_factor)
      by (apply Qmult_le_0_compat; lra).
    lra.
Qed.

Lemma capacity_grows_from_whole_segments_witness :
  Spec.non_decreasing
    (fun length =>
       fst (calculate_capacity weak_below 1 length [0%nat; 1%nat] 1
              false true))
    (1 # 2) (7 # 10).
Proof.
  apply (capacity_grows_from_whole_segments weak_below 1 [0%nat; 1%nat] 1
           false 1).
  - vm_compute. discriminate.
  - vm_compute. discriminate.
  - intros l Hl.
    apply elem_of_cons in Hl as [-> | Hl];
      [|apply list_elem_of_singleton in Hl as ->];
      vm_compute; discriminate.
  - reflexivity.
  - vm_compute. discriminate.
Defined.

(** A strong layer over a weak one: at a length of 0.3 the single segment
    is sampled at 0.15, in the strong layer; at 0.5 it is sampled at 0.25,
    in the weak one. *)
Lemma capacity_falls_between_segments :
  ~ Spec.monotone_in_length weak_below 1 [0%nat; 1%nat] 1 false.
Proof.
  intros H.
  destruct (H) with (length1 := 3 # 10) (length2 := 5 # 10)
    as (c1 & c2 & H1 & H2 & Hle).
  - intros l Hl.
    apply elem_of_cons in Hl as [-> | Hl];
      [|apply list_elem_of_singleton in Hl as ->];
      vm_compute; discriminate.
  - vm_compute. discriminate.
  - vm_compute. discriminate.
  - vm_compute in H1, H2. injection H1 as <-. injection H2 as <-.
    vm_compute in Hle. by apply Hle.
Qed.

(** * Further properties of the engine *)

(** ** A record listed more than once *)

Section Aliasing.
Import Profile Spec.

Lemma positional_cons s r rest :
  positional s (r :: rest) =
  set_bottom_depth (s r) (next_top s rest) :: positional s rest.
Proof. unfold positional. simpl. by rewrite next_top_deref. Qed.

Lemma positional_agree rs : forall s1 s2 : objects,
  (forall r, r ∈ rs -> same_record (s1 r) (s2 r)) ->
  positional s1 rs = positional s2 rs.
Proof.
  induction rs as [|r rest IH]; intros s1 s2 Hs; [done|].
  rewrite !positional_cons. f_equal.
  - assert (Hb : next_top s1 rest = next_top s2 rest).
    { destruct rest as [|next rest']; [done|]. simpl.
      destruct (Hs next) as (_ & -> & _); [by right; left | done]. }
    rewrite Hb. apply set_bottom_depth_eq, Hs. by left.
  - apply IH. intros x Hx. apply Hs. by right.
Qed.

Lemma insert_same (s : objects) r u x :
  same_record u (s r) -> same_record (<[r := u]> s x) (s x).
Proof.
  intros Hu. destruct (decide (r = x)) as [<- | Hne].
  - by rewrite fn_lookup_insert.
  - rewrite fn_lookup_insert_ne by done. apply same_record_refl.
Qed.

Lemma positional_step s r u rest :
  same_record u (s r) ->
  positional (<[r := u]> s) rest = positional s rest.
Proof.
  intros Hu. apply positional_agree. intros x _. by apply insert_same.
Qed.

Lemma deref_assign_cons s r rest :
  deref (assign_bottom_depths s (r :: rest)) (r :: rest) =
  let s1 := <[r := set_bottom_depth (s r) (next_top s rest)]> s in
  assign_bottom_depths s1 rest r :: deref (assign_bottom_depths s1 rest) rest.
Proof. done. Qed.

(** What the assignments leave in the list is, dict by dict, what some
    position derives. *)
Lemma assigned_in_positional rs : forall (s : objects) a,
  a ∈ deref (assign_bottom_depths s rs) rs -> a ∈ positional s rs.
Proof.
  induction rs as [|r rest IH]; intros s a Ha; [done|].
  rewrite deref_assign_cons in Ha. rewrite positional_cons. simpl in Ha.
  set (s1 := <[r := set_bottom_depth (s r) (next_top s rest)]> s) in *.
  assert (Htail : forall b,
    b ∈ deref (assign_bottom_depths s1 rest) rest -> b ∈ positional s rest).
  { intros b Hb. apply IH in Hb. subst s1.
    by rewrite positional_step in Hb by apply set_bottom_depth_same. }
  apply elem_of_cons in Ha as [-> | Ha]; [|right; by apply Htail].
  destruct (decide (r ∈ rest)) as [Hr | Hr].
  - right. apply Htail. unfold deref. by apply list_elem_of_fmap_2.
  - rewrite assign_outside by done. subst s1.
    rewrite fn_lookup_insert. by left.
Qed.

Lemma sorted_step (s : objects) r u rest :
  same_record u (s r) ->
  StronglySorted (fun x y => top_depth (s x) <= top_depth (s y)) rest ->
  StronglySorted
    (fun x y => top_depth (<[r := u]> s x) <= top_depth (<[r := u]> s y)) rest.
Proof.
  intros Hu. apply StronglySorted_weaken. intros x y Hxy.
  destruct (insert_same s r u x Hu) as (_ & -> & _).
  destruct (insert_same s r u y Hu) as (_ & -> & _). done.
Qed.

(** In a sorted list, a position whose interval is not empty is the last
    one of its dict: the assignments leave there what the position
    derives. *)
Lemma positional_in_assigned depth rs : forall (s : objects) v,
  StronglySorted (fun x y => top_depth (s x) <= top_depth (s y)) rs ->
  v ∈ positional s rs -> contains v depth ->
  v ∈ deref (assign_bottom_depths s rs) rs.
Proof.
  induction rs as [|r rest IH]; intros s v Hs Hv Hc; [done|].
  rewrite deref_assign_cons. rewrite positional_cons in Hv. simpl.
  apply StronglySorted_inv in Hs as [Hs Hr].
  set (s1 := <[r := set_bottom_depth (s r) (next_top s rest)]> s) in *.
  apply elem_of_cons in Hv as [-> | Hv].
  - destruct (decide (r ∈ rest)) as [Hin | Hin].
    + exfalso. destruct Hc as [Htop (b & [= <-] & Hlt)]. simpl in Htop.
      destruct rest as [|next rest']; [by apply elem_of_nil in Hin|].
      simpl in Hlt. apply Qltb_lt in Hlt.
      assert (top_depth (s next) <= top_depth (s r)).
      { apply elem_of_cons in Hin as [-> | Hin]; [apply Qle_refl|].
        apply StronglySorted_inv in Hs as [_ Hnext].
        rewrite Forall_forall in Hnext. by apply Hnext. }
      lra.
    + rewrite assign_outside by done. subst s1.
      rewrite fn_lookup_insert. by left.
  - right. subst s1. apply IH; [| |done].
    + apply sorted_step; [apply set_bottom_depth_same | done].
    + by rewrite positional_step by apply set_bottom_depth_same.
Qed.

Lemma assigned_last rs : forall s : objects,
  last (deref (assign_bottom_depths s rs) rs) = last (positional s rs).
Proof.
  induction rs as [|r rest IH]; intros s; [done|].
  rewrite deref_assign_cons, positional_cons. cbv zeta.
  rewrite !last_cons, IH, positional_step by apply set_bottom_depth_same.
  destruct (last (positional s rest)) eqn:Hlast; [done|].
  destruct rest as [|next rest'].
  2: { rewrite positional_cons, last_cons in Hlast.
       by destruct (last (positional s rest')). }
  simpl. by rewrite fn_lookup_insert.
Qed.

Lemma assigned_same_positional rs : forall s : objects,
  Forall2 same_record (deref (assign_bottom_depths s rs) rs)
    (positional s rs).
Proof.
  induction rs as [|r rest IH]; intros s; [constructor|].
  rewrite deref_assign_cons, positional_cons. simpl. constructor.
  - eapply same_record_trans; [apply assign_same|].
    rewrite fn_lookup_insert. apply same_record_refl.
  - rewrite <- (positional_step s r
                  (set_bottom_depth (s r) (next_top s rest)) rest)
      by apply set_bottom_depth_same.
    apply IH.
Qed.

End Aliasing.

(** ** The value of a call, by position *)

Section Positional.
Import Profile Spec Engine.

Lemma find_unit_some depth profile u :
  find_unit depth profile = Ok (Some u) -> u ∈ profile /\ contains u depth.
Proof.
  induction profile as [|v rest IH]; cbn [find_unit]; [done|].
  destruct (Qle_bool (top_depth v) depth) eqn:Htop.
  - destruct (bottom_depth v) as [b|] eqn:Hb; [|done].
    destruct (ext_ltb (Fin depth) b) eqn:Hlt.
    + intros [= <-]. split; [by left|].
      split; [by apply Qle_bool_iff|]. by exists b.
    + intros H. destruct (IH H). split; [by right | done].
  - intros H. destruct (IH H). split; [by right | done].
Qed.

Lemma find_unit_nothing depth profile :
  find_unit depth profile = Ok None ->
  forall u, u ∈ profile -> ~ contains u depth.
Proof.
  induction profile as [|v rest IH]; cbn [find_unit]; intros H u Hu.
  - by apply elem_of_nil in Hu.
  - destruct (Qle_bool (top_depth v) depth) eqn:Htop.
    + destruct (bottom_depth v) as [b|] eqn:Hb; [|done].
      destruct (ext_ltb (Fin depth) b) eqn:Hlt; [done|].
      apply elem_of_cons in Hu as [-> | Hu]; [|by apply IH].
      intros [_ (b' & Hb' & Hlt')]. unfold ext_lt in Hlt'. congruence.
    + apply elem_of_cons in Hu as [-> | Hu]; [|by apply IH].
      intros [Hle _]. apply Qle_bool_iff in Hle. congruence.
Qed.

Lemma positional_ascending (s : objects) rs :
  StronglySorted (fun x y => top_depth (s x) <= top_depth (s y)) rs ->
  ascending (positional s rs).
Proof.
  induction rs as [|r rest IH]; intros Hs; [constructor|].
  apply StronglySorted_inv in Hs as [Hs Hr].
  rewrite positional_cons. constructor; [by apply IH|].
  apply Forall_forall. intros v Hv. simpl.
  assert (Hfrom : exists x, x ∈ rest /\ top_depth v = top_depth (s x)).
  { clear -Hv. induction rest as [|x rest IH];
      [by apply elem_of_nil in Hv|].
    rewrite positional_cons in Hv.
    apply elem_of_cons in Hv as [-> | Hv].
    - exists x. split; [by left | done].
    - destruct (IH Hv) as (y & Hy & ->). exists y. split; [by right|done]. }
  destruct Hfrom as (x & Hx & ->).
  rewrite Forall_forall in Hr. by apply Hr.
Qed.

Lemma positional_chained (s : objects) rs : chained (positional s rs).
Proof. apply chained_layers. Qed.

(** The scan finds the same dict in what the assignments leave as in the
    profile by position. *)
Lemma find_unit_positional depth (s : objects) rs :
  StronglySorted (fun x y => top_depth (s x) <= top_depth (s y)) rs ->
  find_unit depth (deref (assign_bottom_depths s rs) rs)
  = find_unit depth (positional s rs).
Proof.
  intros Hs.
  pose proof (positional_chained s rs) as Hc.
  pose proof (positional_ascending s rs Hs) as Ha.
  assert (Hb : Forall (fun u => is_Some (bottom_depth u))
                 (deref (assign_bottom_depths s rs) rs)).
  { unfold deref. apply Forall_fmap, Forall_forall. intros r Hr.
    by apply assign_sets_bottom. }
  destruct (find_unit_ok depth _ Hb) as (found & Hfound & _).
  rewrite Hfound. destruct found as [a|].
  - apply find_unit_some in Hfound as [Hin Hcont].
    symmetry. apply find_unit_contains; [done|done| |done].
    by apply assigned_in_positional.
  - symmetry. apply find_unit_none; [done|].
    intros v Hv Hcont.
    apply (find_unit_nothing _ _ Hfound v); [|done].
    by eapply positional_in_assigned.
Qed.

Lemma loop_same_record toe_depth embed_length profile1 profile2 :
  Forall2 same_record profile1 profile2 ->
  forall previous_EB,
    Embedment.loop toe_depth embed_length previous_EB profile1
    = Embedment.loop toe_depth embed_length previous_EB profile2.
Proof.
  induction 1 as [|u v rest1 rest2 (_ & Ht & _ & He) Hrest IH];
    intros previous_EB; [done|].
  simpl. unfold Embedment.body. rewrite Ht, He.
  assert (Hb : Embedment.bottom_of rest1 = Embedment.bottom_of rest2).
  { destruct Hrest as [|u' v' ? ? (_ & Ht' & _)]; simpl;
      [done | by rewrite Ht']. }
  rewrite Hb.
  destruct (ext_ltb toe_depth _); [done|].
  destruct (_ && _); [done|].
  destruct (ext_leb _ toe_depth); apply IH.
Qed.

Lemma friction_loop_same_scan perimeter length profile1 profile2 :
  (forall depth, find_unit depth profile1 = find_unit depth profile2) ->
  forall segs total,
    friction_loop perimeter length profile1 total segs
    = friction_loop perimeter length profile2 total segs.
Proof.
  intros Hfind. induction segs as [|seg segs IH]; intros total; [done|].
  simpl. unfold friction_step. rewrite Hfind.
  destruct (find_unit _ profile2) as [[u|]|]; simpl; by rewrite ?IH.
Qed.

Lemma capacity_of_profile_same diameter length profile1 profile2
    reduction_factor three_d_embed skin_friction_only :
  (forall depth, find_unit depth profile1 = find_unit depth profile2) ->
  last profile1 = last profile2 ->
  Forall2 same_record profile1 profile2 ->
  capacity_of_profile diameter length profile1 reduction_factor
    three_d_embed skin_friction_only
  = capacity_of_profile diameter length profile2 reduction_factor
      three_d_embed skin_friction_only.
Proof.
  intros Hfind Hlast Hsame.
  unfold capacity_of_profile, skin_friction_component,
    end_bearing_component.
  rewrite (friction_loop_same_scan _ _ profile1 profile2 Hfind).
  unfold Embedment.calculate_3d_embedment_eb.
  by rewrite Hfind, Hlast, (loop_same_record _ _ _ _ Hsame).
Qed.

End Positional.

(** ** A call and the records it is given *)

Section Records.
Import Profile Spec Engine.

Lemma ascending_fmap_inv {A : Type} (f : A -> Unit) (l : list A) :
  ascending (f <$> l) ->
  StronglySorted (fun x y => top_depth (f x) <= top_depth (f y)) l.
Proof.
  induction l as [|x l IH]; [constructor|].
  rewrite fmap_cons. intros [Hs Hx]%StronglySorted_inv.
  constructor; [by apply IH|].
  rewrite Forall_fmap in Hx. eapply Forall_impl; [exact Hx|]. done.
Qed.

Lemma pad_records_ascending sorted_units :
  ascending sorted_units -> ascending (pad_records sorted_units).
Proof.
  intros Hs. unfold pad_records.
  destruct sorted_units as [|first rest]; [done|].
  destruct (Qltb 0 (top_depth first)) eqn:Hpos; [|done].
  apply Qltb_lt in Hpos. constructor; [done|].
  apply StronglySorted_inv in Hs as [_ Hall].
  constructor; [simpl; lra|].
  eapply Forall_impl; [exact Hall|]. simpl. intros y Hy. lra.
Qed.

Lemma pad_records_from_surface sorted_units :
  from_surface (pad_records sorted_units).
Proof.
  unfold pad_records. destruct sorted_units as [|first rest]; [done|].
  destruct (Qltb 0 (top_depth first)) eqn:Hpos; simpl.
  - apply Qle_refl.
  - by apply Qltb_ge.
Qed.

Lemma layers_tops profile :
  fst <$> Embedment.layers profile = profile.
Proof.
  induction profile as [|u rest IH]; [done|].
  cbn [Embedment.layers]. rewrite fmap_cons. cbn [fst]. by rewrite IH.
Qed.

Lemma with_bottoms_same profile :
  Forall2 same_record
    ((fun l => set_bottom_depth (fst l) (snd l)) <$> Embedment.layers profile)
    profile.
Proof.
  induction profile as [|u rest IH]; [constructor|].
  cbn [Embedment.layers]. rewrite fmap_cons.
  constructor; [apply set_bottom_depth_same | done].
Qed.

Lemma from_surface_same profile1 profile2 :
  Forall2 same_record profile1 profile2 ->
  from_surface profile2 -> from_surface profile1.
Proof.
  destruct 1 as [|u v ? ? (_ & Ht & _)]; simpl; [done | by rewrite Ht].
Qed.

Lemma ascending_same profile1 profile2 :
  Forall2 same_record profile1 profile2 ->
  ascending profile2 -> ascending profile1.
Proof.
  induction 1 as [|u v rest1 rest2 (_ & Ht & _) Hrest IH]; [done|].
  intros [Hs Hall]%StronglySorted_inv. constructor; [by apply IH|].
  rewrite Ht. clear -Hrest Hall.
  induction Hrest as [|u' v' ? ? (_ & Ht' & _) ? IH]; [constructor|].
  apply Forall_cons in Hall as [Hv Hall].
  constructor; [by rewrite Ht' | by apply IH].
Qed.

(** The profile of any list of records is normalized. *)
Lemma pure_profile_normalized records : normalized (pure_profile records).
Proof.
  pose proof (with_bottoms_same
                (pad_records (sorted top_depth records))) as Hsame.
  split; [|split].
  - apply (ascending_same _ _ Hsame), pad_records_ascending.
    apply sorted_sorted.
  - apply chained_layers.
  - apply (from_surface_same _ _ Hsame), pad_records_from_surface.
Qed.

(** Every dict of it is the dummy or one of the records, up to its
    bottom. *)
Lemma pure_profile_origin records u :
  u ∈ pure_profile records ->
  same_record u dummy_unit \/ exists v, v ∈ records /\ same_record u v.
Proof.
  intros Hu. unfold pure_profile in Hu.
  apply list_elem_of_fmap in Hu as ([v b] & -> & Hv). simpl.
  assert (Hin : v ∈ pad_records (sorted top_depth records)).
  { rewrite <- (layers_tops (pad_records _)).
    by apply (list_elem_of_fmap_2 fst) in Hv. }
  assert (Hor : v = dummy_unit \/ v ∈ sorted top_depth records).
  { unfold pad_records in Hin.
    destruct (sorted top_depth records) as [|first rest]; [by right|].
    destruct (Qltb 0 (top_depth first)); [|by right].
    apply elem_of_cons in Hin as [-> | Hin]; [by left | by right]. }
  destruct Hor as [-> | Hs]; [by left|].
  right. exists v. split; [|apply set_bottom_depth_same].
  by apply (sorted_elem top_depth v records).
Qed.

Lemma sort_and_pad_records (h : heap) units :
  exists rs (s1 : objects),
    sort_and_pad (objects_of h) units = (rs, s1)
    /\ (forall r, s1 r = objects_of h r)
    /\ deref s1 rs = pad_records (sorted top_depth (h <$> units)).
Proof.
  unfold sort_and_pad. rewrite sorted_fmap.
  rewrite (sorted_fmap top_depth h units).
  change (sorted (fun b => top_depth (objects_of h (Caller b))) units)
    with (sorted (fun b => top_depth (h b)) units).
  destruct (sorted (fun b => top_depth (h b)) units) as [|l rest].
  - by exists [], (objects_of h).
  - rewrite !fmap_cons. cbn [objects_of pad_records].
    destruct (Qltb 0 (top_depth (h l))).
    + exists (Dummy :: Caller l :: (Caller <$> rest)),
        (<[Dummy := dummy_unit]> (objects_of h)).
      split; [done|]. split.
      * intros r. destruct (decide (Dummy = r)) as [<- | Hne].
        -- by rewrite fn_lookup_insert.
        -- by rewrite fn_lookup_insert_ne.
      * unfold deref. rewrite !fmap_cons, fn_lookup_insert.
        rewrite fn_lookup_insert_ne by done. f_equal. f_equal.
        rewrite <- list_fmap_compose. apply list_fmap_ext.
        intros i x _. simpl. by rewrite fn_lookup_insert_ne.
    + exists (Caller l :: (Caller <$> rest)), (objects_of h).
      split; [done|]. split; [done|].
      unfold deref. rewrite !fmap_cons. f_equal.
      by rewrite <- list_fmap_compose.
Qed.

(** A call returns what the records give, whether or not a dict occurs
    twice in the list. *)
Lemma calculate_capacity_records (h : heap) units diameter length
    reduction_factor three_d_embed skin_friction_only :
  fst (calculate_capacity h diameter length units reduction_factor
         three_d_embed skin_friction_only)
  = capacity_of_profile diameter length (pure_profile (h <$> units))
      reduction_factor three_d_embed skin_friction_only.
Proof.
  rewrite calculate_capacity_value. unfold profile_of, normalize.
  destruct (sort_and_pad_records h units) as (rs & s1 & -> & _ & Hd).
  assert (Hpos : positional s1 rs = pure_profile (h <$> units)).
  { unfold positional, pure_profile. by rewrite Hd. }
  assert (Hs : StronglySorted
                 (fun x y => top_depth (s1 x) <= top_depth (s1 y)) rs).
  { apply ascending_fmap_inv. fold (deref s1 rs). rewrite Hd.
    apply pad_records_ascending, sorted_sorted. }
  rewrite <- Hpos. apply capacity_of_profile_same.
  - intros depth. by apply find_unit_positional.
  - apply assigned_last.
  - apply assigned_same_positional.
Qed.

End Records.

(** ** X1: no layers *)


(** ** X2: the records, not the dicts *)

Section SameRecords.
Import Profile Spec.

Lemma insert_by_same_record x y l1 l2 :
  same_record x y -> Forall2 same_record l1 l2 ->
  Forall2 same_record (insert_by top_depth x l1) (insert_by top_depth y l2).
Proof.
  intros Hxy. induction 1 as [|u v rest1 rest2 Huv Hrest IH]; simpl.
  - constructor; [done | constructor].
  - assert (Hx : top_depth x = top_depth y) by apply Hxy.
    assert (Hu : top_depth u = top_depth v) by apply Huv.
    rewrite Hx, Hu. destruct (Qltb _ _).
    + constructor; [done | apply IH].
    + constructor; [done|]. by constructor.
Qed.

Lemma sorted_same_record records1 records2 :
  Forall2 same_record records1 records2 ->
  Forall2 same_record (sorted top_depth records1) (sorted top_depth records2).
Proof.
  induction 1 as [|u v rest1 rest2 Huv Hrest IH]; [constructor|].
  unfold sorted in *. simpl. by apply insert_by_same_record.
Qed.

Lemma pad_records_same_record records1 records2 :
  Forall2 same_record records1 records2 ->
  Forall2 same_record (pad_records records1) (pad_records records2).
Proof.
  intros H. unfold pad_records.
  destruct H as [|u v rest1 rest2 Huv Hrest]; [constructor|].
  assert (Ht : top_depth u = top_depth v) by apply Huv. rewrite Ht.
  destruct (Qltb 0 (top_depth v)).
  - constructor; [apply same_record_refl|]. by constructor.
  - by constructor.
Qed.

Lemma with_bottoms_same_record profile1 profile2 :
  Forall2 same_record profile1 profile2 ->
  (fun l => set_bottom_depth (fst l) (snd l)) <$> Embedment.layers profile1
  = (fun l => set_bottom_depth (fst l) (snd l)) <$> Embedment.layers profile2.
Proof.
  induction 1 as [|u v rest1 rest2 Huv Hrest IH]; [done|].
  cbn [Embedment.layers]. rewrite !fmap_cons, IH. f_equal. cbn [fst snd].
  assert (Hb : Embedment.bottom_of rest1 = Embedment.bottom_of rest2).
  { destruct Hrest as [|u' v' ? ? (_ & Ht' & _)]; simpl;
      [done | by rewrite Ht']. }
  rewrite Hb. by apply set_bottom_depth_eq.
Qed.

Lemma pure_profile_same_record records1 records2 :
  Forall2 same_record records1 records2 ->
  pure_profile records1 = pure_profile records2.
Proof.
  intros H. unfold pure_profile.
  by apply with_bottoms_same_record, pad_records_same_record,
    sorted_same_record.
Qed.

End SameRecords.

(** X2.  The value a call returns depends on the listed records alone,
    through their name, top_depth, skin_friction and end_bearing in list
    order: not on whether one dict is listed twice or two equal dicts are,
    and not on a [bottom_depth] the dicts already carry. *)
Theorem capacity_depends_on_records_only
    (h1 h2 : heap) (units1 units2 : list loc)
    (diameter length reduction_factor : Q)
    (three_d_embed skin_friction_only : bool) :
  Forall2 Spec.same_record (h1 <$> units1) (h2 <$> units2) ->
  fst (calculate_capacity h1 diameter length units1 reduction_factor
         three_d_embed skin_friction_only)
  = fst (calculate_capacity h2 diameter length units2 reduction_factor
           three_d_embed skin_friction_only).
Proof.
  intros Hsame. rewrite !calculate_capacity_records.
  by rewrite (pure_profile_same_record _ _ Hsame).
Qed.

Lemma capacity_depends_on_records_only_witness :
  fst (calculate_capacity one_record 1 10 [0%nat; 0%nat] 1 true false)
  = fst (calculate_capacity
           (heap_of [unit_ 0 10 500;
                     set_bottom_depth (unit_ 0 10 500) (Fin 3)])
           1 10 [0%nat; 1%nat] 1 true false).
Proof.
  apply capacity_depends_on_records_only.
  constructor; [by repeat split|].
  constructor; [by repeat split | constructor].
Defined.

(** ** X3 and X4: the 3D rule against the simple lookup *)

Section Resolver.
Import Spec Engine Embedment.

(** In a chained profile that starts at or above the toe, the scan of
    lines 270-273 finds a layer, and the walk of the resolver returns at
    that same layer. *)
Lemma resolver_reaches_toe_layer (toe embed_length : Q) profile :
  chained profile ->
  forall previous_EB first rest,
    profile = first :: rest -> top_depth first <= toe ->
    exists u previous_EB',
      find_unit toe profile = Ok (Some u)
      /\ loop (Fin toe) embed_length previous_EB profile
         = toe_within (Fin toe) embed_length previous_EB'
             (top_depth u) (end_bearing u).
Proof.
  induction profile as [|v tail IH];
    intros Hc previous_EB first rest [= <- <-] Htop.
  rewrite (find_unit_head _ _ _ Hc).
  assert (Hle : Qle_bool (top_depth v) toe = true) by by apply Qle_bool_iff.
  rewrite Hle. cbn [andb loop].
  destruct (ext_ltb (Fin toe) (bottom_of tail)) eqn:Hlt.
  - exists v, previous_EB. split; [done|].
    by rewrite body_within.
  - destruct tail as [|w tail']; [discriminate|].
    assert (Hw : top_depth w <= toe) by (by apply Qltb_ge in Hlt).
    rewrite body_passed.
    2: { split; unfold ext_le; simpl; by apply Qle_bool_iff. }
    apply chained_cons in Hc as [_ Hc].
    apply (IH Hc _ w tail' eq_refl Hw).
Qed.

Lemma toe_within_le toe_depth embed_length previous_EB unit_top unit_EB :
  0 <= unit_EB ->
  toe_within toe_depth embed_length previous_EB unit_top unit_EB <= unit_EB.
Proof.
  intros Hpos. unfold toe_within.
  destruct (ext_ltb _ _).
  - destruct (stronger unit_EB previous_EB) eqn:Hs; [|done].
    apply stronger_true in Hs. lra.
  - destruct (stronger _ _); apply Qle_refl.
Qed.

Lemma toe_within_mobilized (toe embed_length : Q) previous_EB unit_top unit_EB :
  embed_length <= toe - unit_top ->
  toe_within (Fin toe) embed_length previous_EB unit_top unit_EB = unit_EB.
Proof.
  intros Hm. unfold toe_within. simpl.
  apply Qltb_ge in Hm. rewrite Hm. by destruct (stronger _ _).
Qed.

Lemma ascending_first first rest u :
  ascending (first :: rest) -> u ∈ first :: rest ->
  top_depth first <= top_depth u.
Proof.
  intros [_ Hall]%StronglySorted_inv [-> | Hu]%elem_of_cons;
    [apply Qle_refl|].
  rewrite Forall_forall in Hall. by apply Hall.
Qed.

(** On a normalized profile the end bearing of the 3D rule is at most the
    one of the simple lookup. *)
Lemma end_bearing_3d_le_simple diameter length profile skin_friction_only :
  normalized profile -> 0 <= length ->
  Forall (fun u => 0 <= end_bearing u) profile ->
  exists bearing3 bearing1,
    end_bearing_component diameter length profile true skin_friction_only
      = Ok bearing3
    /\ end_bearing_component diameter length profile false skin_friction_only
       = Ok bearing1
    /\ bearing3 <= bearing1.
Proof.
  intros (Ha & Hc & Hs) HL Heb. unfold end_bearing_component.
  destruct skin_friction_only; simpl.
  { exists 0, 0. split; [done|]. split; [done | apply Qle_refl]. }
  destruct profile as [|first rest].
  { exists 0, 0. split; [done|]. split; [done | apply Qle_refl]. }
  destruct (resolver_reaches_toe_layer length (3 * diameter) _ Hc 0
              first rest eq_refl) as (u & previous_EB' & Hfind & Hloop).
  { simpl in Hs. lra. }
  rewrite Hfind. cbn [bind].
  unfold calculate_3d_embedment_eb. rewrite Hloop.
  do 2 eexists. split; [done|]. split; [done|].
  apply Qmult_le_compat_r; [|apply area_base_nonneg].
  apply toe_within_le.
  apply find_unit_some in Hfind as [Hin _].
  rewrite Forall_forall in Heb. by apply Heb.
Qed.

End Resolver.

Lemma pure_profile_signs (h : heap) units (field : Unit -> Q) :
  (forall u v, Spec.same_record u v -> field u = field v) ->
  field Profile.dummy_unit = 0 ->
  (forall l, l ∈ units -> 0 <= field (h l)) ->
  Forall (fun u => 0 <= field u) (pure_profile (h <$> units)).
Proof.
  intros Hfield Hdummy Hunits. apply Forall_forall. intros u Hu.
  destruct (pure_profile_origin _ _ Hu) as [Hd | (v & Hv & Hsame)].
  - rewrite (Hfield _ _ Hd), Hdummy. apply Qle_refl.
  - rewrite (Hfield _ _ Hsame).
    apply list_elem_of_fmap in Hv as (l & -> & Hl). by apply Hunits.
Qed.

(** X3.  Turning the 3D embedment rule on never raises the capacity: for a
    length >= 0, a reduction factor >= 0 and non-negative end bearings, the
    value with [three_d_embed] true is at most the value with it false. *)
Theorem three_d_embedment_is_conservative
    (h : heap) (diameter length : Q) (units : list loc)
    (reduction_factor : Q) (skin_friction_only : bool) :
  0 <= length -> 0 <= reduction_factor ->
  (forall l, l ∈ units -> 0 <= end_bearing (h l)) ->
  exists capacity3 capacity1,
    fst (calculate_capacity h diameter length units reduction_factor
           true skin_friction_only) = Ok capacity3
    /\ fst (calculate_capacity h diameter length units reduction_factor
              false skin_friction_only) = Ok capacity1
    /\ capacity3 <= capacity1.
Proof.
  intros HL Hrf Heb. rewrite !calculate_capacity_records.
  set (profile := pure_profile (h <$> units)).
  pose proof (pure_profile_normalized (h <$> units)) as Hn.
  fold profile in Hn.
  destruct (friction_loop_ok (np_pi * diameter) length profile 0
              (seq 0 (Z.to_nat (Engine.segments length))))
    as [friction Hf].
  { apply chained_bottoms, Hn. }
  destruct (end_bearing_3d_le_simple diameter length profile
              skin_friction_only Hn HL)
    as (bearing3 & bearing1 & H3 & H1 & Hle).
  { apply (pure_profile_signs h units end_bearing); [|done|done].
    by intros u v (_ & _ & _ & ?). }
  unfold Engine.capacity_of_profile, Engine.skin_friction_component.
  rewrite Hf, H3, H1. cbn [bind].
  do 2 eexists. split; [done|]. split; [done|].
  apply Qmult_le_compat_r; [lra | done].
Qed.

Lemma three_d_embedment_is_conservative_witness :
  exists capacity3 capacity1,
    fst (calculate_capacity two_records (6 # 10) 6 [0%nat; 1%nat] 1
           true false) = Ok capacity3
    /\ fst (calculate_capacity two_records (6 # 10) 6 [0%nat; 1%nat] 1
              false false) = Ok capacity1
    /\ capacity3 <= capacity1.
Proof.
  apply three_d_embedment_is_conservative.
  - vm_compute. discriminate.
  - vm_compute. discriminate.
  - intros l Hl.
    apply elem_of_cons in Hl as [-> | Hl];
      [|apply list_elem_of_singleton in Hl as ->];
      vm_compute; discriminate.
Defined.

Lemma profile_of_in_pure_profile (h : heap) units u :
  u ∈ profile_of h units -> u ∈ pure_profile (h <$> units).
Proof.
  unfold profile_of, Profile.normalize.
  destruct (sort_and_pad_records h units) as (rs & s1 & -> & _ & Hd).
  intros Hu. apply assigned_in_positional in Hu.
  unfold positional in Hu. by rewrite Hd in Hu.
Qed.

(** X4.  Once the toe is at least 3 diameters below the top of the layer
    it lies in, the 3D embedment rule changes nothing: the call returns the
    same value with [three_d_embed] true as with it false. *)
Theorem mobilized_toe_layer_matches_simple_mode
    (h : heap) (diameter length : Q) (units : list loc)
    (reduction_factor : Q) (skin_friction_only : bool) (u : Unit) :
  u ∈ profile_of h units -> Spec.contains u length ->
  3 * diameter <= length - top_depth u ->
  fst (calculate_capacity h diameter length units reduction_factor
         true skin_friction_only)
  = fst (calculate_capacity h diameter length units reduction_factor
           false skin_friction_only).
Proof.
  intros Hu Hc Hm. apply profile_of_in_pure_profile in Hu.
  rewrite !calculate_capacity_records.
  set (profile := pure_profile (h <$> units)) in *.
  destruct (pure_profile_normalized (h <$> units)) as (Ha & Hch & _).
  fold profile in Ha, Hch.
  pose proof (find_unit_contains length profile u Hch Ha Hu Hc) as Hfind.
  unfold Engine.capacity_of_profile, Engine.end_bearing_component.
  destruct skin_friction_only; [done|]. simpl.
  destruct (Engine.skin_friction_component diameter length profile);
    [|done].
  cbn [bind]. rewrite Hfind. cbn [bind].
  destruct profile as [|first rest] eqn:Hp; [by apply elem_of_nil in Hu|].
  destruct (resolver_reaches_toe_layer length (3 * diameter)
              (first :: rest) Hch 0 first rest eq_refl)
    as (u' & previous_EB' & Hfind' & Hloop).
  { destruct Hc as [Hc _]. pose proof (ascending_first _ _ _ Ha Hu). lra. }
  rewrite Hfind in Hfind'. injection Hfind' as <-.
  unfold Embedment.calculate_3d_embedment_eb.
  by rewrite Hloop, toe_within_mobilized.
Qed.

Lemma mobilized_toe_layer_matches_simple_mode_witness :
  fst (calculate_capacity two_records (6 # 10) 10 [0%nat; 1%nat] 1
         true false)
  = fst (calculate_capacity two_records (6 # 10) 10 [0%nat; 1%nat] 1
           false false).
Proof.
  apply (mobilized_toe_layer_matches_simple_mode two_records (6 # 10) 10
           [0%nat; 1%nat] 1 false (set_bottom_depth (unit_ 5 0 400) PInf)).
  - right. right. left.
  - split; [vm_compute; discriminate|]. exists PInf. split; reflexivity.
  - vm_compute. discriminate.
Defined.

(** ** X5: a pile that ends above the shallowest layer *)

Section Shallow.
Import Profile Spec Engine.

Lemma seg_top_le length seg :
  (seg < Z.to_nat (segments length))%nat -> seg_top seg <= length.
Proof.
  intros Hseg. unfold seg_top.
  pose proof (Qceiling_lt (length / increment)) as Hc.
  assert (Hz : (Z.of_nat seg <= Qceiling (length / increment) - 1)%Z).
  { unfold segments in Hseg. lia. }
  rewrite Zle_Qle in Hz.
  assert (inject_Z (Z.of_nat seg) < length * 2)
    by (eapply Qle_lt_trans; [exact Hz | exact Hc]).
  unfold increment. lra.
Qed.

Lemma seg_mid_le length seg :
  (seg < Z.to_nat (segments length))%nat -> seg_mid length seg <= length.
Proof.
  intros Hseg. unfold seg_mid. rewrite Qhalve.
  pose proof (seg_top_le _ _ Hseg).
  assert (seg_bot length seg <= length) by apply Q.le_min_r.
  lra.
Qed.

(** Segments that all fall in layers without skin friction add nothing. *)
Lemma friction_loop_no_friction perimeter length profile :
  forall segs total,
    Forall (fun seg => exists u,
              find_unit (seg_mid length seg) profile = Ok (Some u)
              /\ skin_friction u == 0) segs ->
    exists total',
      friction_loop perimeter length profile total segs = Ok total'
      /\ total' == total.
Proof.
  induction segs as [|seg segs IH]; intros total Hsegs.
  - exists total. split; [done | reflexivity].
  - apply Forall_cons in Hsegs as [(u & Hfind & Hsf) Hsegs].
    simpl. unfold friction_step. rewrite Hfind. simpl.
    destruct (IH (total + skin_friction u * perimeter * seg_len length seg)
                Hsegs) as (total' & -> & Heq).
    exists total'. split; [done|]. rewrite Heq, Hsf. ring.
Qed.

(** The profile of records that all lie below [length]: the dummy comes
    first, and reaches deeper than [length]. *)
Lemma pure_profile_below length records first rest :
  0 <= length ->
  (forall v, v ∈ records -> length < top_depth v) ->
  records = first :: rest ->
  exists bottom tail,
    pure_profile records
      = set_bottom_depth dummy_unit (Fin bottom) :: tail
    /\ length < bottom.
Proof.
  intros HL Hbelow Hne. unfold pure_profile.
  destruct (sorted top_depth records) as [|shallowest sorted'] eqn:Hs.
  { exfalso. assert (Hin : first ∈ sorted top_depth records).
    { apply sorted_elem. rewrite Hne. by left. }
    rewrite Hs in Hin. by apply elem_of_nil in Hin. }
  assert (Hsh : length < top_depth shallowest).
  { apply Hbelow. apply (sorted_elem top_depth).
    rewrite Hs. by left. }
  unfold pad_records.
  assert (Hpos : Qltb 0 (top_depth shallowest) = true)
    by (apply Qltb_lt; lra).
  rewrite Hpos. cbn [Embedment.layers Embedment.bottom_of].
  rewrite fmap_cons. cbn [fst snd].
  by do 2 eexists.
Qed.

Lemma find_unit_in_dummy depth bottom tail :
  0 <= depth -> depth < bottom ->
  find_unit depth (set_bottom_depth dummy_unit (Fin bottom) :: tail)
  = Ok (Some (set_bottom_depth dummy_unit (Fin bottom))).
Proof.
  intros H0 Hb. cbn [find_unit set_bottom_depth top_depth bottom_depth
                     dummy_unit].
  apply Qle_bool_iff in H0. rewrite H0.
  apply Qltb_lt in Hb. simpl. by rewrite Hb.
Qed.

End Shallow.

(** X5.  A pile that ends above every supplied layer has no capacity: when
    [0 <= length] and every layer's [top_depth] is greater than [length],
    the call returns 0, with or without the 3D rule. *)
Theorem pile_above_all_layers_has_no_capacity
    (h : heap) (diameter length : Q) (units : list loc)
    (reduction_factor : Q) (three_d_embed skin_friction_only : bool) :
  0 <= length ->
  (forall l, l ∈ units -> length < top_depth (h l)) ->
  exists capacity,
    fst (calculate_capacity h diameter length units reduction_factor
           three_d_embed skin_friction_only) = Ok capacity
    /\ capacity == 0.
Proof.
  intros HL Hbelow. rewrite calculate_capacity_records.
  destruct (h <$> units) as [|first rest] eqn:Hrecords.
  { exists ((0 + 0) * reduction_factor). split; [|ring].
    change (pure_profile []) with (@nil Unit).
    unfold Engine.capacity_of_profile, Engine.skin_friction_component.
    rewrite friction_loop_nil. cbn [bind]. by destruct skin_friction_only. }
  destruct (pure_profile_below length (h <$> units) first rest HL)
    as (bottom & tail & Hprofile & Hbottom); [|done|].
  { intros v (l & -> & Hl)%list_elem_of_fmap. by apply Hbelow. }
  rewrite <- Hrecords, Hprofile.
  pose (dummy := set_bottom_depth Profile.dummy_unit (Fin bottom)).
  destruct (friction_loop_no_friction (np_pi * diameter) length
              (dummy :: tail)
              (seq 0 (Z.to_nat (Engine.segments length))) 0)
    as (friction & Hf & Hfz).
  { apply Forall_forall. intros seg Hseg.
    apply list_elem_of_In, in_seq in Hseg.
    exists dummy. split; [|reflexivity].
    apply find_unit_in_dummy; [by apply seg_mid_nonneg|].
    eapply Qle_lt_trans; [apply seg_mid_le; lia | done]. }
  unfold Engine.capacity_of_profile, Engine.skin_friction_component.
  unfold dummy in Hf. rewrite Hf. cbn [bind].
  unfold Engine.end_bearing_component.
  destruct skin_friction_only; cbn [negb bind].
  { eexists. split; [done|]. rewrite Hfz. ring. }
  rewrite (find_unit_in_dummy length bottom tail HL Hbottom). cbn [bind].
  eexists. split; [done|]. rewrite Hfz.
  destruct three_d_embed.
  - unfold Embedment.calculate_3d_embedment_eb.
    cbn [Embedment.loop]. rewrite body_within.
    + unfold Embedment.toe_within, Embedment.stronger. simpl.
      destruct (Qltb _ _); ring.
    + unfold ext_le. simpl. by apply Qle_bool_iff.
    + unfold ext_lt. destruct tail as [|next tail'].
      * done.
      * (* the next top is the dummy's bottom *)
        assert (Hc : Spec.chained (dummy :: next :: tail')).
        { unfold dummy. rewrite <- Hprofile.
          apply pure_profile_normalized. }
        apply chained_cons in Hc as [[= ->] _].
        simpl. by apply Qltb_lt.
  - simpl. ring.
Qed.

Lemma pile_above_all_layers_has_no_capacity_witness :
  exists capacity,
    fst (calculate_capacity two_records (6 # 10) 1 [0%nat; 1%nat] 1
           true false) = Ok capacity
    /\ capacity == 0.
Proof.
  apply pile_above_all_layers_has_no_capacity.
  - vm_compute. discriminate.
  - intros l Hl.
    apply elem_of_cons in Hl as [-> | Hl];
      [|apply list_elem_of_singleton in Hl as ->]; reflexivity.
Defined.

(** ** X6: one skin friction from the surface down *)

Section Uniform.
Import Profile Spec Engine.

Lemma Qsum_app f l1 l2 : Qsum f (l1 ++ l2) == Qsum f l1 + Qsum f l2.
Proof.
  induction l1 as [|k l1 IH]; simpl; [ring|]. rewrite IH. ring.
Qed.

Lemma seg_len_sum_full length (m : nat) :
  inject_Z (Z.of_nat m) * increment <= length ->
  Qsum (seg_len length) (seq 0 m) == inject_Z (Z.of_nat m) * increment.
Proof.
  induction m as [|m IH]; intros Hm; [reflexivity|].
  assert (Hstep : inject_Z (Z.of_nat (S m))
                  == inject_Z (Z.of_nat m) + 1).
  { rewrite Nat2Z.inj_succ. unfold Z.succ. by rewrite inject_Z_plus. }
  rewrite seq_S, Qsum_app. simpl.
  rewrite IH by (rewrite Hstep in Hm; unfold increment in *; lra).
  unfold seg_len, seg_bot, seg_top.
  replace (m + 1)%nat with (S m) by lia.
  rewrite Qmin_left by done. rewrite Hstep. ring.
Qed.

(** The segments of a pile add up to its length. *)
Lemma seg_len_sum length :
  0 <= length ->
  Qsum (seg_len length) (seq 0 (Z.to_nat (segments length))) == length.
Proof.
  intros HL.
  pose proof (Qle_ceiling (length / increment)) as Hceil.
  change (length / increment) with (length * 2) in Hceil.
  fold (segments length) in Hceil.
  change (Qceiling (length * 2)) with (segments length) in Hceil.
  destruct (Z.to_nat (segments length)) as [|m] eqn:Hn.
  - simpl. assert (segments length <= 0)%Z by lia.
    assert (inject_Z (segments length) <= 0)
      by (by rewrite Zle_Qle in *).
    lra.
  - assert (Hseg : segments length = Z.of_nat (S m)) by lia.
    rewrite Hseg in Hceil.
    assert (Hstep : inject_Z (Z.of_nat (S m))
                    == inject_Z (Z.of_nat m) + 1).
    { rewrite Nat2Z.inj_succ. unfold Z.succ. by rewrite inject_Z_plus. }
    assert (Hm : inject_Z (Z.of_nat m) * increment <= length).
    { apply (seg_top_le length m). lia. }
    rewrite seq_S, Qsum_app, seg_len_sum_full by done. simpl.
    unfold seg_len, seg_bot, seg_top.
    replace (m + 1)%nat with (S m) by lia.
    rewrite Q.min_r by (rewrite Hstep in *; unfold increment; lra).
    ring.
Qed.

Lemma friction_loop_uniform perimeter length profile sf :
  0 <= length ->
  (forall depth, 0 <= depth ->
     exists u, find_unit depth profile = Ok (Some u)
               /\ skin_friction u == sf) ->
  forall segs total,
    exists total',
      friction_loop perimeter length profile total segs = Ok total'
      /\ total' == total + sf * perimeter * Qsum (seg_len length) segs.
Proof.
  intros HL Hfind. induction segs as [|seg segs IH]; intros total.
  - exists total. split; [done|]. simpl. ring.
  - destruct (Hfind (seg_mid length seg)) as (u & Hu & Hsf);
      [by apply seg_mid_nonneg|].
    simpl. unfold friction_step. rewrite Hu. simpl.
    destruct (IH (total + skin_friction u * perimeter * seg_len length seg))
      as (total' & -> & Heq).
    exists total'. split; [done|]. rewrite Heq, Hsf. ring.
Qed.

(** With a record at the surface or above it, no dummy is put in. *)
Lemma pure_profile_unpadded records v0 :
  v0 ∈ records -> top_depth v0 <= 0 ->
  pure_profile records <> []
  /\ forall u, u ∈ pure_profile records ->
       exists v, v ∈ records /\ same_record u v.
Proof.
  intros Hv0 Htop. unfold pure_profile, pad_records.
  pose proof (sorted_sorted top_depth records) as Hs.
  assert (Hin : v0 ∈ sorted top_depth records) by by apply sorted_elem.
  destruct (sorted top_depth records) as [|first rest] eqn:Hsorted;
    [by apply elem_of_nil in Hin|].
  pose proof (ascending_first _ _ _ Hs Hin) as Hfirst.
  assert (Hpad : Qltb 0 (top_depth first) = false)
    by (apply Qltb_ge; lra).
  rewrite Hpad. split; [done|].
  intros u ([v b] & -> & Hv)%list_elem_of_fmap. simpl.
  exists v. split; [|apply set_bottom_depth_same].
  apply (sorted_elem top_depth v records). rewrite Hsorted.
  rewrite <- (layers_tops (first :: rest)).
  by apply (list_elem_of_fmap_2 fst) in Hv.
Qed.

End Uniform.

(** X6.  When every supplied layer has the same skin friction [sf] and one
    of them starts at the surface or above it, a skin-friction-only call
    returns [sf * (pi * diameter) * length * reduction_factor] for every
    [length >= 0], whole segments or not. *)
Theorem uniform_skin_friction_capacity
    (h : heap) (diameter length : Q) (units : list loc)
    (reduction_factor : Q) (three_d_embed : bool) (sf : Q) :
  0 <= length ->
  (forall l, l ∈ units -> skin_friction (h l) == sf) ->
  (exists l, l ∈ units /\ top_depth (h l) <= 0) ->
  exists capacity,
    fst (calculate_capacity h diameter length units reduction_factor
           three_d_embed true) = Ok capacity
    /\ capacity == sf * (np_pi * diameter) * length * reduction_factor.
Proof.
  intros HL Hsf (l0 & Hl0 & Htop0). rewrite calculate_capacity_records.
  set (profile := pure_profile (h <$> units)).
  destruct (pure_profile_normalized (h <$> units)) as (Ha & Hc & Hs).
  destruct (pure_profile_unpadded (h <$> units) (h l0)) as [Hne Horigin];
    [by apply list_elem_of_fmap_2 | done |].
  fold profile in Ha, Hc, Hs, Hne, Horigin.
  destruct (friction_loop_uniform (np_pi * diameter) length profile sf HL)
    with (segs := seq 0 (Z.to_nat (Engine.segments length))) (total := 0)
    as (friction & Hf & Hfeq).
  { intros depth Hd. destruct profile as [|first rest] eqn:Hp; [done|].
    destruct (chained_covers depth (first :: rest) first rest Hc eq_refl)
      as (u & Hu & Hcont).
    { simpl in Hs. lra. }
    exists u. split; [by apply find_unit_contains|].
    destruct (Horigin u Hu) as (v & Hv & (_ & _ & -> & _)).
    apply list_elem_of_fmap in Hv as (l & -> & Hl). by apply Hsf. }
  unfold Engine.capacity_of_profile, Engine.skin_friction_component.
  rewrite Hf. cbn [bind Engine.end_bearing_component negb].
  eexists. split; [done|].
  rewrite Hfeq, seg_len_sum by done. ring.
Qed.

Lemma uniform_skin_friction_capacity_witness :
  exists capacity,
    fst (calculate_capacity one_record (6 # 10) (73 # 10) [0%nat] 1
           false true) = Ok capacity
    /\ capacity == 10 * (np_pi * (6 # 10)) * (73 # 10) * 1.
Proof.
  apply uniform_skin_friction_capacity.
  - vm_compute. discriminate.
  - intros l Hl. apply list_elem_of_singleton in Hl as ->. reflexivity.
  - exists 0%nat. split; [by left|]. vm_compute. discriminate.
Defined.

(** ** X7: the order of the list *)

Section Order.
Import Profile.
Context {A : Type} (key : A -> Q).

Lemma sorted_lists_equal (l1 l2 : list A) :
  StronglySorted (fun x y => key x <= key y) l1 ->
  StronglySorted (fun x y => key x <= key y) l2 ->
  l1 ≡ₚ l2 ->
  (forall x y, x ∈ l1 -> y ∈ l1 -> key x == key y -> x = y) ->
  l1 = l2.
Proof.
  revert l2. induction l1 as [|a t1 IH]; intros l2 Hs1 Hs2 Hperm Hkeys.
  - by apply Permutation_nil in Hperm.
  - destruct l2 as [|b t2];
      [by apply Permutation_sym, Permutation_nil in Hperm|].
    apply StronglySorted_inv in Hs1 as [Hs1 Ha].
    apply StronglySorted_inv in Hs2 as [Hs2 Hb].
    rewrite Forall_forall in Ha, Hb.
    assert (Hab : key a <= key b).
    { assert (Hin : b ∈ a :: t1) by (rewrite Hperm; by left).
      apply elem_of_cons in Hin as [-> | Hin];
        [apply Qle_refl | by apply Ha]. }
    assert (Hba : key b <= key a).
    { assert (Hin : a ∈ b :: t2) by (rewrite <- Hperm; by left).
      apply elem_of_cons in Hin as [-> | Hin];
        [apply Qle_refl | by apply Hb]. }
    assert (a = b) as <-.
    { apply Hkeys; [by left | rewrite Hperm; by left | by apply Qle_antisym]. }
    f_equal. apply IH; [done | done | by eapply Permutation_cons_inv |].
    intros x y Hx Hy. apply Hkeys; by right.
Qed.

Lemma sorted_of_permutation (l1 l2 : list A) :
  l1 ≡ₚ l2 ->
  (forall x y, x ∈ l1 -> y ∈ l1 -> key x == key y -> x = y) ->
  sorted key l1 = sorted key l2.
Proof.
  intros Hperm Hkeys.
  apply sorted_lists_equal; [apply sorted_sorted | apply sorted_sorted | |].
  - by rewrite !sorted_perm.
  - intros x y Hx%sorted_elem Hy%sorted_elem. by apply Hkeys.
Qed.

End Order.

(** X7.  When the listed layers have pairwise different top depths, the
    order in which they are listed does not matter to the value a call
    returns. *)
Theorem capacity_ignores_list_order
    (h : heap) (units1 units2 : list loc)
    (diameter length reduction_factor : Q)
    (three_d_embed skin_friction_only : bool) :
  units1 ≡ₚ units2 ->
  (forall l l', l ∈ units1 -> l' ∈ units1 ->
     top_depth (h l) == top_depth (h l') -> l = l') ->
  fst (calculate_capacity h diameter length units1 reduction_factor
         three_d_embed skin_friction_only)
  = fst (calculate_capacity h diameter length units2 reduction_factor
           three_d_embed skin_friction_only).
Proof.
  intros Hperm Hkeys. rewrite !calculate_capacity_records.
  unfold pure_profile.
  rewrite !(sorted_fmap top_depth h).
  by rewrite (sorted_of_permutation (fun l => top_depth (h l))
                units1 units2 Hperm Hkeys).
Qed.

Lemma capacity_ignores_list_order_witness :
  fst (calculate_capacity two_records (6 # 10) 10 [0%nat; 1%nat] 1
         true false)
  = fst (calculate_capacity two_records (6 # 10) 10 [1%nat; 0%nat] 1
           true false).
Proof.
  apply capacity_ignores_list_order.
  - apply Permutation_swap.
  - intros l l' Hl Hl'.
    apply elem_of_cons in Hl as [-> | Hl];
      [|apply list_elem_of_singleton in Hl as ->];
      (apply elem_of_cons in Hl' as [-> | Hl'];
        [|apply list_elem_of_singleton in Hl' as ->]);
      intros Heq; try reflexivity; vm_compute in Heq; discriminate.
Defined.

(** * The session's list of units *)

Section Rename.

Lemma rename_from_cons i (h : heap) l rest :
  rename_from i h (l :: rest)
  = rename_from (S i) (<[l := set_name (h l) (unit_name i)]> h) rest.
Proof. done. Qed.

Lemma rename_from_outside units : forall i (h : heap) l,
  l ∉ units -> rename_from i h units l = h l.
Proof.
  induction units as [|l0 rest IH]; intros i h l Hl; [done|].
  apply not_elem_of_cons in Hl as [Hne Hl].
  rewrite rename_from_cons, IH by done. by rewrite fn_lookup_insert_ne.
Qed.

Lemma rename_from_lookup units : forall i (h : heap) k l,
  NoDup units -> units !! k = Some l ->
  rename_from i h units l = set_name (h l) (unit_name (i + k)).
Proof.
  induction units as [|l0 rest IH]; intros i h k l Hnd Hk; [done|].
  apply NoDup_cons in Hnd as [Hl0 Hnd]. rewrite rename_from_cons.
  destruct k as [|k]; simpl in Hk.
  - injection Hk as ->. rewrite rename_from_outside by done.
    by rewrite fn_lookup_insert, Nat.add_0_r.
  - rewrite (IH _ _ k l Hnd Hk).
    assert (l0 <> l).
    { intros ->. apply Hl0. by eapply list_elem_of_lookup_2. }
    rewrite fn_lookup_insert_ne by done. f_equal. f_equal. lia.
Qed.

Lemma set_name_same_but_name u v n :
  same_but_name u v -> set_name u n = set_name v n.
Proof.
  intros (Ht & Hs & He & Hb). unfold set_name. by rewrite Ht, Hs, He, Hb.
Qed.

Lemma rename_from_keeps units : forall i (h : heap) l,
  same_but_name (rename_from i h units l) (h l).
Proof.
  induction units as [|l0 rest IH]; intros i h l; [done|].
  rewrite rename_from_cons.
  destruct (IH (S i) (<[l0 := set_name (h l0) (unit_name i)]> h) l)
    as (Ht & Hs & He & Hb).
  destruct (decide (l0 = l)) as [<- | Hne].
  - rewrite fn_lookup_insert in *. done.
  - rewrite fn_lookup_insert_ne in * by done. done.
Qed.

(** Heaps that agree on the other keys along the list are renamed
    alike. *)
Lemma rename_from_agree units : forall i (h1 h2 : heap) (Q : loc -> Prop),
  (forall l, Q l -> h1 l = h2 l) ->
  (forall l, l ∈ units -> same_but_name (h1 l) (h2 l)) ->
  forall l, l ∈ units \/ Q l ->
    rename_from i h1 units l = rename_from i h2 units l.
Proof.
  induction units as [|l0 rest IH]; intros i h1 h2 Q HQ Hunits l Hl.
  - destruct Hl as [Hl | Hl]; [by apply elem_of_nil in Hl | by apply HQ].
  - rewrite !rename_from_cons.
    assert (Hu : set_name (h1 l0) (unit_name i)
                 = set_name (h2 l0) (unit_name i)).
    { apply set_name_same_but_name, Hunits. by left. }
    apply (IH _ _ _ (fun l => l = l0 \/ Q l)).
    + intros l' [-> | Hq].
      * by rewrite !fn_lookup_insert.
      * destruct (decide (l0 = l')) as [<- | Hne].
        -- by rewrite !fn_lookup_insert.
        -- rewrite !fn_lookup_insert_ne by done. by apply HQ.
    + intros l' Hl'. destruct (decide (l0 = l')) as [<- | Hne].
      * by rewrite !fn_lookup_insert, Hu.
      * rewrite !fn_lookup_insert_ne by done. apply Hunits. by right.
    + rewrite elem_of_cons in Hl. tauto.
Qed.

Lemma unit_name_inj : Inj (=) (=) unit_name.
Proof.
  intros i j H. unfold unit_name in H.
  apply (inj pretty). by simplify_eq/=.
Qed.

Lemma rename_units_lookup_all (h : heap) units :
  NoDup units ->
  forall k l, units !! k = Some l ->
    rename_units h units l = set_name (h l) (unit_name (S k)).
Proof.
  intros Hnd k l Hk. unfold rename_units.
  by rewrite (rename_from_lookup units 1 h k l).
Qed.

End Rename.

(** X8.  [rename_units] names the units of a list of distinct dicts
    "Unit 1", "Unit 2", ... in list order, changes no other key of theirs,
    and touches no dict outside the list. *)
Theorem rename_units_numbers_the_units (h : heap) (units : list loc) :
  NoDup units ->
  (forall k l, units !! k = Some l ->
     rename_units h units l = set_name (h l) (unit_name (S k)))
  /\ (forall l, l ∉ units -> rename_units h units l = h l).
Proof.
  intros Hnd. split.
  - intros k l Hk. unfold rename_units.
    by rewrite (rename_from_lookup units 1 h k l).
  - intros l Hl. by apply rename_from_outside.
Qed.

Lemma rename_units_numbers_the_units_witness :
  name (rename_units two_records [1%nat; 0%nat] 0%nat) = "Unit 2".
Proof.
  destruct (rename_units_numbers_the_units two_records [1%nat; 0%nat])
    as [Hname _].
  - apply NoDup_cons. split.
    + intros H%list_elem_of_singleton. discriminate.
    + apply NoDup_singleton.
  - rewrite (Hname 1%nat 0%nat eq_refl). reflexivity.
Defined.

(** X9.  After [rename_units] the names of the units of a list of distinct
    dicts are pairwise different. *)
Theorem rename_units_names_are_distinct (h : heap) (units : list loc) :
  NoDup units ->
  NoDup ((fun l => name (rename_units h units l)) <$> units).
Proof.
  intros Hnd. apply NoDup_alt. intros i j n Hi Hj.
  apply list_lookup_fmap_Some in Hi as (li & -> & Hi).
  apply list_lookup_fmap_Some in Hj as (lj & Hn & Hj).
  unfold rename_units in Hn.
  rewrite (rename_from_lookup units 1 h i li Hnd Hi) in Hn.
  rewrite (rename_from_lookup units 1 h j lj Hnd Hj) in Hn.
  simpl in Hn. apply unit_name_inj in Hn. lia.
Qed.

Lemma rename_units_names_are_distinct_witness :
  NoDup ((fun l => name (rename_units two_records [1%nat; 0%nat] l))
           <$> [1%nat; 0%nat]).
Proof.
  apply rename_units_names_are_distinct.
  apply NoDup_cons. split.
  - intros H%list_elem_of_singleton. discriminate.
  - apply NoDup_singleton.
Defined.

(** X10.  Renaming twice is renaming once, whatever the list holds: the
    second [rename_units()] after [load_csv] changes nothing. *)
Theorem rename_units_is_idempotent (h : heap) (units : list loc) (l : loc) :
  rename_units (rename_units h units) units l = rename_units h units l.
Proof.
  unfold rename_units.
  destruct (decide (l ∈ units)) as [Hl | Hl].
  - apply (rename_from_agree units 1 _ h (fun _ => False)); [done| |by left].
    intros l' _. apply rename_from_keeps.
  - by rewrite !rename_from_outside.
Qed.

Section Buttons.

Lemma depth_ordered_last (h : heap) units last_unit l :
  depth_ordered h units -> last units = Some last_unit -> l ∈ units ->
  top_depth (h l) <= top_depth (h last_unit).
Proof.
  intros Hs Hlast Hl.
  apply last_Some in Hlast as [init ->].
  apply StronglySorted_app in Hs as (Hcross & _ & _).
  apply elem_of_app in Hl as [Hl | Hl%list_elem_of_singleton].
  - apply Hcross; [done | by left].
  - subst l. apply Qle_refl.
Qed.

Lemma depth_ordered_same_tops (h h' : heap) units :
  (forall l, l ∈ units -> top_depth (h' l) = top_depth (h l)) ->
  depth_ordered h units -> depth_ordered h' units.
Proof.
  unfold depth_ordered. intros Htops.
  induction 1 as [|l rest Hrest IH Hl]; [constructor|].
  constructor.
  - apply IH. intros l' Hl'. apply Htops. by right.
  - apply Forall_forall. intros l' Hl'.
    rewrite !Htops by (by (left + (right; done))).
    rewrite Forall_forall in Hl. by apply Hl.
Qed.

Lemma remove_unit_index_bounds clicked units i :
  remove_unit_index clicked units = Some i ->
  (i < length units)%nat /\ (1 < length units)%nat.
Proof.
  unfold remove_unit_index.
  assert (Hgen : forall n start acc,
    foldl
      (fun idx j =>
         if bool_decide (1 < length units)%nat then
           if clicked j then Some j else idx
         else idx) acc (seq start n) = Some i ->
    acc = Some i
    \/ ((start <= i < start + n)%nat /\ (1 < length units)%nat)).
  { induction n as [|n IH]; intros start acc H; [by left|].
    simpl in H. apply IH in H as [H | [Hi Hlen]].
    - destruct (bool_decide (1 < length units)%nat) eqn:Hlen; [|by left].
      apply bool_decide_eq_true in Hlen.
      destruct (clicked start); [|by left].
      injection H as <-. right. split; [lia | done].
    - right. split; [lia | done]. }
  intros H. apply Hgen in H as [H | [Hi Hlen]]; [done|]. split; [lia|done].
Qed.

End Buttons.

(** X11.  The Add Unit handler fails with an [IndexError] exactly on an
    empty list.  On a list of distinct dicts it appends one dict, 10 below
    the top of the last unit and with no resistance; the units are named
    "Unit 1", "Unit 2", ... and keep their other keys; and a list whose
    tops do not decrease in list order stays such a list. *)
Theorem add_unit_appends_a_deeper_unit
    (fresh : loc) (h : heap) (units : list loc) :
  (add_unit fresh h units = None <-> units = [])
  /\ (NoDup units -> fresh ∉ units ->
      forall last_unit, last units = Some last_unit ->
      exists h',
        add_unit fresh h units = Some (h', units ++ [fresh])
        /\ h' fresh
           = added_unit (length units) (top_depth (h last_unit))
        /\ (forall k l, units !! k = Some l ->
              h' l = set_name (h l) (unit_name (S k)))
        /\ (depth_ordered h units -> depth_ordered h' (units ++ [fresh]))).
Proof.
  split.
  - unfold add_unit. destruct (last units) eqn:Hlast.
    + split; [done|]. intros ->. discriminate.
    + split; [|done]. intros _. by apply last_None.
  - intros Hnd Hfresh last_unit Hlast. unfold add_unit. rewrite Hlast.
    set (new := added_unit (length units) (top_depth (h last_unit))).
    assert (Hnd' : NoDup (units ++ [fresh])).
    { apply NoDup_app. split; [done|]. split; [|apply NoDup_singleton].
      intros l Hl ->%list_elem_of_singleton. done. }
    pose proof (rename_units_lookup_all (<[fresh := new]> h)
                  (units ++ [fresh]) Hnd') as Hname.
    assert (Hnew : rename_units (<[fresh:=new]> h) (units ++ [fresh]) fresh
                   = new).
    { rewrite (Hname (length units) fresh).
      - rewrite fn_lookup_insert. unfold new, added_unit, set_name. simpl.
        by rewrite Nat.add_1_r.
      - rewrite lookup_app_r by done. by rewrite Nat.sub_diag. }
    assert (Hold : forall k l, units !! k = Some l ->
      rename_units (<[fresh:=new]> h) (units ++ [fresh]) l
      = set_name (h l) (unit_name (S k))).
    { intros k l Hk. rewrite (Hname k l).
      - rewrite fn_lookup_insert_ne; [done|]. intros ->.
        apply Hfresh. by eapply list_elem_of_lookup_2.
      - by apply lookup_app_l_Some. }
    eexists. split; [done|]. split; [done|]. split; [done|].
    intros Hs. apply StronglySorted_app. split; [|split].
    + intros l l' Hl ->%list_elem_of_singleton.
      apply list_elem_of_lookup in Hl as [k Hk].
      rewrite (Hold k l Hk), Hnew. unfold new. simpl.
      assert (Hl : l ∈ units) by (by eapply list_elem_of_lookup_2).
      pose proof (depth_ordered_last h units last_unit l Hs Hlast Hl).
      lra.
    + apply (depth_ordered_same_tops h); [|done].
      intros l Hl. apply list_elem_of_lookup in Hl as [k Hk].
      by rewrite (Hold k l Hk).
    + repeat constructor.
Qed.

Lemma add_unit_appends_a_deeper_unit_witness :
  exists h',
    add_unit 1%nat one_record [0%nat] = Some (h', [0%nat; 1%nat])
    /\ top_depth (h' 1%nat) == 10.
Proof.
  destruct (proj2 (add_unit_appends_a_deeper_unit 1%nat one_record [0%nat]))
    with (last_unit := 0%nat) as (h' & Hadd & Hnew & _).
  - apply NoDup_singleton.
  - intros H%list_elem_of_singleton. discriminate.
  - reflexivity.
  - exists h'. split; [exact Hadd|]. rewrite Hnew. reflexivity.
Defined.

(** X12.  The Remove handler never fails and never empties the list: a
    unit is removed only from a list of more than one, at an index of the
    list.  After a removal the units left, when distinct dicts, are named
    "Unit 1", "Unit 2", ...; no key of a dict other than its name is
    written. *)
Theorem remove_button_never_empties_the_list
    (clicked : nat -> bool) (h : heap) (units : list loc) :
  units <> [] ->
  exists h' units',
    handle_remove (remove_unit_index clicked units) h units
      = Some (h', units')
    /\ units' <> []
    /\ (forall l, same_but_name (h' l) (h l))
    /\ match remove_unit_index clicked units with
       | None => units' = units
       | Some i =>
           units' = delete i units
           /\ (NoDup units ->
               forall k l, units' !! k = Some l ->
                 name (h' l) = unit_name (S k))
       end.
Proof.
  intros Hne. unfold handle_remove.
  destruct (remove_unit_index clicked units) as [i|] eqn:Hidx.
  - apply remove_unit_index_bounds in Hidx as [Hi Hlen].
    rewrite bool_decide_eq_true_2 by done.
    do 2 eexists. split; [done|]. split; [|split; [|split; [done|]]].
    + intros Hnil. apply (f_equal length) in Hnil.
      rewrite length_delete in Hnil by (by apply lookup_lt_is_Some).
      simpl in Hnil. lia.
    + intros l. apply rename_from_keeps.
    + intros Hnd k l Hk.
      assert (Hnd' : NoDup (delete i units))
        by (eapply sublist_NoDup; [done | apply sublist_delete]).
      by rewrite (rename_units_lookup_all h (delete i units) Hnd' k l Hk).
  - exists h, units. split; [done|]. split; [done|]. split; [|done].
    intros l. by repeat split.
Qed.

Lemma remove_button_never_empties_the_list_witness :
  exists h' units',
    handle_remove (remove_unit_index (fun i => Nat.eqb i 0) [0%nat; 1%nat])
      two_records [0%nat; 1%nat] = Some (h', units')
    /\ units' <> [].
Proof.
  destruct (remove_button_never_empties_the_list (fun i => Nat.eqb i 0)
              two_records [0%nat; 1%nat])
    as (h' & units' & Hr & Hne & _).
  - discriminate.
  - exists h', units'. split; [exact Hr | exact Hne].
Defined.

(** * The sweep *)

Section Sweep.
Import Spec.

Variable h : heap.
Variable units : list loc.
Variable reduction_factor : Q.
Variables three_d_embed skin_friction_only : bool.

(** A call leaves the four supplied keys of every dict. *)
Lemma call_keeps_records (h0 : heap) d L l :
  same_record
    (snd (calculate_capacity h0 d L units reduction_factor
            three_d_embed skin_friction_only) l) (h0 l).
Proof.
  destruct (heap_after h0 units d L reduction_factor
              three_d_embed skin_friction_only)
    as (rs & s1 & _ & Hs1 & _ & _ & ->).
  eapply same_record_trans; [apply assign_same|].
  rewrite Hs1. apply same_record_refl.
Qed.

Lemma call_value_agrees (h0 : heap) d L :
  (forall l, same_record (h0 l) (h l)) ->
  fst (calculate_capacity h0 d L units reduction_factor
         three_d_embed skin_friction_only)
  = fst (calculate_capacity h d L units reduction_factor
           three_d_embed skin_friction_only).
Proof.
  intros Hsame. rewrite !calculate_capacity_value.
  rewrite (profile_of_agree h0 h units); [done|].
  intros l _. apply Hsame.
Qed.

Lemma curve_of_calls d lengths : forall h0 : heap,
  (forall l, same_record (h0 l) (h l)) ->
  exists capacities,
    fst (curve h0 d lengths units reduction_factor
           three_d_embed skin_friction_only) = Ok capacities
    /\ Forall2
         (fun L cap =>
            fst (calculate_capacity h d L units reduction_factor
                   three_d_embed skin_friction_only) = Ok cap)
         lengths capacities
    /\ forall l,
         same_record
           (snd (curve h0 d lengths units reduction_factor
                   three_d_embed skin_friction_only) l) (h l).
Proof.
  induction lengths as [|L lengths' IH]; intros h0 Hsame.
  - exists []. split; [done|]. split; [constructor | done].
  - cbn [curve].
    pose proof (call_value_agrees h0 d L Hsame) as Hvalue.
    pose proof (call_keeps_records h0 d L) as Hkeeps.
    destruct (calculate_capacity h0 d L units reduction_factor
                three_d_embed skin_friction_only) as [cap h1].
    simpl in Hvalue, Hkeeps.
    destruct (components_ok h units d L three_d_embed skin_friction_only)
      as (friction & bearing & _ & _ & Hc).
    rewrite (Hc reduction_factor) in Hvalue. subst cap.
    destruct (IH h1) as (capacities & Hcurve & Hall & Hheap).
    { intros l. eapply same_record_trans; [apply Hkeeps | apply Hsame]. }
    destruct (curve h1 d lengths' units reduction_factor
                three_d_embed skin_friction_only) as [r h2].
    simpl in Hcurve, Hheap. subst r.
    eexists. split; [done|]. split; [|done].
    constructor; [apply Hc | done].
Qed.

Lemma curves_of_calls diameters lengths : forall h0 : heap,
  (forall l, same_record (h0 l) (h l)) ->
  exists traces,
    fst (curves h0 diameters lengths units reduction_factor
           three_d_embed skin_friction_only) = Ok traces
    /\ Forall2
         (trace_of_calls h lengths units reduction_factor
            three_d_embed skin_friction_only)
         diameters traces
    /\ forall l,
         same_record
           (snd (curves h0 diameters lengths units reduction_factor
                   three_d_embed skin_friction_only) l) (h l).
Proof.
  induction diameters as [|d diameters' IH]; intros h0 Hsame.
  - exists []. split; [done|]. split; [constructor | done].
  - cbn [curves].
    destruct (curve_of_calls d lengths h0 Hsame)
      as (capacities & Hcurve & Hall & Hheap).
    destruct (curve h0 d lengths units reduction_factor
                three_d_embed skin_friction_only) as [r h1].
    simpl in Hcurve, Hheap. subst r.
    destruct (IH h1 Hheap) as (traces & Hcurves & Htraces & Hheap').
    destruct (curves h1 diameters' lengths units reduction_factor
                three_d_embed skin_friction_only) as [r h2].
    simpl in Hcurves, Hheap'. subst r.
    eexists. split; [done|]. split; [|done].
    constructor; [by split | done].
Qed.

End Sweep.

(** X13.  The sweep raises nothing and gives one trace per diameter with
    one capacity per length; although every call writes [bottom_depth]
    into the session's dicts, each capacity is what a call on the dicts as
    they were before the sweep returns, and the sweep leaves their name,
    top_depth, skin_friction and end_bearing as they were. *)
Theorem sweep_plots_independent_calls
    (h : heap) (diameter_min diameter_max : Q) (length_min length_max : Z)
    (units : list loc) (reduction_factor : Q)
    (three_d_embed skin_friction_only : bool) :
  let run :=
    sweep h diameter_min diameter_max length_min length_max units
      reduction_factor three_d_embed skin_friction_only in
  exists traces,
    fst run = Ok traces
    /\ Forall2
         (trace_of_calls h (sweep_lengths length_min length_max) units
            reduction_factor three_d_embed skin_friction_only)
         (sweep_diameters diameter_min diameter_max) traces
    /\ forall l, Spec.same_record (snd run l) (h l).
Proof.
  apply curves_of_calls. intros l. apply same_record_refl.
Qed.

Section SweepGrowth.
Import Engine.

(** Growth from a length of whole segments, of either sign. *)
Lemma skin_capacity_grows (h : heap) (diameter : Q) (units : list loc)
    (reduction_factor : Q) (three_d_embed : bool) (z : Z)
    (length1 length2 : Q) :
  0 <= diameter -> 0 <= reduction_factor ->
  (forall l, l ∈ units -> 0 <= skin_friction (h l)) ->
  length1 == inject_Z z * (1 # 2) -> length1 <= length2 ->
  exists c1 c2,
    fst (calculate_capacity h diameter length1 units reduction_factor
           three_d_embed true) = Ok c1
    /\ fst (calculate_capacity h diameter length2 units reduction_factor
              three_d_embed true) = Ok c2
    /\ c1 <= c2.
Proof.
  intros Hd Hrf Hsf HL Hle.
  set (profile := profile_of h units).
  pose proof (profile_of_bottoms h units) as Hb. fold profile in Hb.
  assert (Hsigns : Forall (fun u => 0 <= skin_friction u) profile).
  { apply (profile_of_signs h units skin_friction); [|done|done].
    by intros u v (_ & _ & ? & _). }
  assert (Hp : 0 <= np_pi * diameter).
  { pose proof np_pi_pos. apply Qmult_le_0_compat; lra. }
  set (m := Z.to_nat z).
  assert (Hn1 : Z.to_nat (segments length1) = m).
  { unfold segments. rewrite HL.
    setoid_replace (inject_Z z * (1 # 2) / increment)
      with (inject_Z z) using relation Qeq
      by (unfold increment; field).
    by rewrite Qceiling_Z. }
  pose proof (segments_mono length1 length2 Hle) as Hn2.
  rewrite Hn1 in Hn2.
  assert (Hfull :
    Forall (fun seg => seg_bot length1 seg = seg_bot length2 seg) (seq 0 m)).
  { destruct (Z_lt_le_dec z 0) as [Hneg | Hpos].
    - subst m. replace (Z.to_nat z) with 0%nat by lia. constructor.
    - apply full_segments; [|done]. subst m.
      rewrite Z2Nat.id by done. exact HL. }
  destruct (friction_loop_ok (np_pi * diameter) length1 profile 0 (seq 0 m) Hb)
    as [c1 Hc1].
  destruct (friction_loop_grows (np_pi * diameter) length2 profile
              Hb Hsigns Hp
              (seq m (Z.to_nat (segments length2) - m)) c1)
    as (c2 & Hc2 & Hc12).
  { apply segs_nonneg. lia. }
  exists ((c1 + 0) * reduction_factor), ((c2 + 0) * reduction_factor).
  split; [|split].
  - rewrite calculate_capacity_value. fold profile.
    unfold capacity_of_profile, skin_friction_component.
    by rewrite Hn1, Hc1.
  - rewrite calculate_capacity_value. fold profile.
    unfold capacity_of_profile, skin_friction_component.
    replace (Z.to_nat (segments length2))
      with (m + (Z.to_nat (segments length2) - m))%nat by lia.
    rewrite seq_app, friction_loop_app. simpl "+"%nat.
    rewrite <- (friction_loop_same_bottoms _ length1 length2) by done.
    rewrite Hc1. cbn [bind]. by rewrite Hc2.
  - assert (0 <= (c2 - c1) * reduction_factor)
      by (apply Qmult_le_0_compat; lra).
    lra.
Qed.

Lemma calls_sorted (h : heap) (diameter : Q) (units : list loc)
    (reduction_factor : Q) (three_d_embed : bool) lengths capacities :
  0 <= diameter -> 0 <= reduction_factor ->
  (forall l, l ∈ units -> 0 <= skin_friction (h l)) ->
  StronglySorted whole_then lengths ->
  Forall2
    (fun L cap =>
       fst (calculate_capacity h diameter L units reduction_factor
              three_d_embed true) = Ok cap)
    lengths capacities ->
  StronglySorted Qle capacities.
Proof.
  intros Hd Hrf Hsf Hsorted Hcalls.
  induction Hcalls as [|L cap lengths' capacities' Hcap Hcalls IH];
    [constructor|].
  apply StronglySorted_inv in Hsorted as [Hsorted Hhead].
  constructor; [by apply IH|].
  clear IH Hsorted.
  induction Hcalls as [|L' cap' lengths'' capacities'' Hcap' Hcalls IH];
    [constructor|].
  apply Forall_cons in Hhead as [[[z Hz] Hle] Hhead].
  constructor; [|by apply IH].
  destruct (skin_capacity_grows h diameter units reduction_factor
              three_d_embed z L L' Hd Hrf Hsf Hz Hle)
    as (c1 & c2 & H1 & H2 & H12).
  congruence.
Qed.

Lemma np_arange_elem start stop step x :
  x ∈ np_arange start stop step ->
  exists i : nat, x = start + inject_Z (Z.of_nat i) * step.
Proof.
  unfold np_arange. intros Hx.
  apply list_elem_of_fmap in Hx as (i & -> & _). by exists i.
Qed.

Lemma steps_sorted (start : Z) n : forall a,
  StronglySorted whole_then
    ((fun i => inject_Z start + inject_Z (Z.of_nat i) * 2) <$> seq a n).
Proof.
  induction n as [|n IH]; intros a; [constructor|].
  cbn [seq fmap list_fmap]. constructor; [apply IH|].
  apply Forall_fmap, Forall_forall. intros j Hj.
  apply list_elem_of_In, in_seq in Hj. split.
  - exists (2 * (start + 2 * Z.of_nat a))%Z.
    rewrite !inject_Z_mult, inject_Z_plus, inject_Z_mult.
    change (inject_Z 2) with 2. lra.
  - simpl. assert (Hz : (Z.of_nat a <= Z.of_nat j)%Z) by lia.
    rewrite Zle_Qle in Hz. lra.
Qed.

End SweepGrowth.

(** X14.  With only skin friction asked for, a non-negative smallest
    diameter, a non-negative reduction factor and non-negative skin
    frictions, every curve of the figure is non-decreasing along the
    lengths: the lengths of the sweep are integers, so each is a whole
    number of 0.5 m segments. *)
Theorem swept_skin_friction_curves_do_not_fall
    (h : heap) (diameter_min diameter_max : Q) (length_min length_max : Z)
    (units : list loc) (reduction_factor : Q) (three_d_embed : bool) :
  0 <= diameter_min -> 0 <= reduction_factor ->
  (forall l, l ∈ units -> 0 <= skin_friction (h l)) ->
  exists traces,
    fst (sweep h diameter_min diameter_max length_min length_max units
           reduction_factor three_d_embed true) = Ok traces
    /\ Forall (fun trace => StronglySorted Qle (snd trace)) traces.
Proof.
  intros Hd Hrf Hsf.
  destruct (curves_of_calls h units reduction_factor three_d_embed true
              (sweep_diameters diameter_min diameter_max)
              (sweep_lengths length_min length_max) h)
    as (traces & Hrun & Htraces & _).
  { intros l. apply same_record_refl. }
  exists traces. split; [exact Hrun|]. clear Hrun.
  assert (Hds : Forall (fun d => 0 <= d)
                  (sweep_diameters diameter_min diameter_max)).
  { apply Forall_forall. intros d Hin.
    apply np_arange_elem in Hin as (i & ->).
    assert (Hz : (0 <= Z.of_nat i)%Z) by lia.
    rewrite Zle_Qle in Hz. change (inject_Z 0) with 0 in Hz. lra. }
  induction Htraces as [|d trace ds traces' [_ Hcalls] _ IH];
    [constructor|].
  apply Forall_cons in Hds as [Hd0 Hds].
  constructor; [|by apply IH].
  eapply calls_sorted; [exact Hd0 | exact Hrf | exact Hsf | | exact Hcalls].
  apply steps_sorted.
Qed.

Lemma swept_skin_friction_curves_do_not_fall_witness :
  exists traces,
    fst (sweep weak_below (3 # 10) (6 # 10) 2 6 [0%nat; 1%nat]
           1 false true) = Ok traces
    /\ Forall (fun trace => StronglySorted Qle (snd trace)) traces.
Proof.
  apply (swept_skin_friction_curves_do_not_fall weak_below (3 # 10) (6 # 10)
           2 6 [0%nat; 1%nat] 1 false).
  - vm_compute. discriminate.
  - vm_compute. discriminate.
  - intros l Hl.
    apply elem_of_cons in Hl as [-> | Hl];
      [|apply list_elem_of_singleton in Hl as ->];
      vm_compute; discriminate.
Defined.

Section SweepLengths.



End SweepLengths.


(** * Loading a CSV file *)

Section LoadCsv.
Import Csv CsvFile.
Context `{Builtins}.

Lemma parse_app next0 h lines1 lines2 :
  parse next0 h (lines1 ++ lines2)
  = foldl parse_line (parse next0 h lines1) lines2.
Proof. unfold parse. by rewrite foldl_app. Qed.

Lemma parse_line_blank f line :
  blank line ->
  parse_line f line
  = mkFrame (params f) (units f) units_section true
      (store f) (next f) (messages f).
Proof.
  intros Hb. unfold parse_line. by rewrite decide_True.
Qed.

Lemma parse_line_header f line :
  ~ blank line -> mode f = units_section -> skip_next_line f = true ->
  parse_line f line
  = mkFrame (params f) (units f) units_section false
      (store f) (next f) (messages f).
Proof.
  intros Hb Hm Hs. unfold parse_line.
  rewrite decide_False by done. by rewrite Hm, Hs.
Qed.

Lemma parse_line_invariant next0 h f line :
  loop_invariant next0 h f -> loop_invariant next0 h (parse_line f line).
Proof.
  intros (Hu & Hn & Hs & Hm). unfold parse_line.
  destruct (decide (strip line = EmptyString)); [done|].
  destruct (mode f).
  - by destruct (split_1 line) as [[key value]|].
  - destruct (skip_next_line f); [done|].
    destruct (split line) as [|f1 [|f2 [|f3 [|f4 [|]]]]]; try done.
    destruct (float (strip f2)) as [t|],
             (float (strip f3)) as [s|],
             (float (strip f4)) as [e|];
      try (repeat split; try done; simpl;
           apply Forall_app; split; [done | by repeat constructor]).
    repeat split; simpl; [|lia| |done].
    + rewrite Hu.
      replace (S (next f) - next0)%nat with (S (next f - next0)) by lia.
      rewrite seq_S. do 2 f_equal. lia.
    + intros l Hl. rewrite fn_lookup_insert_ne by lia. by apply Hs.
Qed.

Lemma foldl_invariant next0 h lines : forall f,
  loop_invariant next0 h f ->
  loop_invariant next0 h (foldl parse_line f lines).
Proof.
  induction lines as [|line lines IH]; intros f Hf; [done|].
  simpl. by apply IH, parse_line_invariant.
Qed.

Lemma parse_invariant next0 h lines :
  loop_invariant next0 h (parse next0 h lines).
Proof.
  apply foldl_invariant. unfold loop_invariant, start.
  split_and!; simpl; [by rewrite Nat.sub_diag | lia | done | constructor].
Qed.

(** The unit list is not among the parameters. *)
Lemma update_parameters_units params st st' :
  update_parameters params st = Done st'
  \/ update_parameters params st = Failed st' ->
  Session.units st' = Session.units st.
Proof.
  unfold update_parameters, assign, and_then, assign_flag.
  repeat
    match goal with
    | |- context [params !! ?k] => destruct (params !! k)
    | |- context [float ?v] => destruct (float v)
    end;
    intros [Heq | Heq]; by simplify_eq.
Qed.



End LoadCsv.

Section LoadCsvLayout.
Import Csv CsvFile.
Context `{Builtins}.

Lemma load_csv_of_parse next1 next2 h1 h2 st lines1 lines2 :
  parse next1 h1 lines1 = parse next2 h2 lines2 ->
  load_csv next1 h1 st lines1 = load_csv next2 h2 st lines2.
Proof. unfold load_csv. by intros ->. Qed.

(** In the units section, past the header, the loop stays there. *)
Lemma units_section_stays f line :
  ~ blank line -> mode f = units_section -> skip_next_line f = false ->
  mode (parse_line f line) = units_section
  /\ skip_next_line (parse_line f line) = false.
Proof.
  intros Hb Hm Hs. unfold parse_line.
  rewrite decide_False by done. rewrite Hm, Hs.
  destruct (split line) as [|f1 [|f2 [|f3 [|f4 [|]]]]]; try done.
  by destruct (float (strip f2)), (float (strip f3)), (float (strip f4)).
Qed.

Lemma units_section_rows rows : forall f,
  Forall (fun row => ~ blank row) rows ->
  mode f = units_section -> skip_next_line f = false ->
  mode (foldl parse_line f rows) = units_section
  /\ skip_next_line (foldl parse_line f rows) = false.
Proof.
  induction rows as [|row rows IH]; intros f Hrows Hm Hs; [done|].
  apply Forall_cons in Hrows as [Hrow Hrows]. simpl.
  destruct (units_section_stays f row Hrow Hm Hs). by apply IH.
Qed.

Lemma row_ignored f row :
  ~ blank row -> mode f = units_section -> skip_next_line f = false ->
  length (split row) <> 4%nat ->
  parse_line f row = f.
Proof.
  intros Hb Hm Hs Hlen. unfold parse_line.
  rewrite decide_False by done. rewrite Hm, Hs.
  by destruct (split row) as [|f1 [|f2 [|f3 [|f4 [|]]]]].
Qed.

(** Before the first blank line only [params] is written. *)
Lemma parameters_section pre : forall f,
  Forall (fun line => ~ blank line) pre -> mode f = parameters ->
  let f' := foldl parse_line f pre in
  mode f' = parameters /\ units f' = units f /\ store f' = store f
  /\ next f' = next f /\ messages f' = messages f
  /\ skip_next_line f' = skip_next_line f.
Proof.
  induction pre as [|line pre IH]; intros f Hpre Hm; [done|].
  apply Forall_cons in Hpre as [Hline Hpre]. simpl.
  assert (Hstep :
    mode (parse_line f line) = parameters
    /\ units (parse_line f line) = units f
    /\ store (parse_line f line) = store f
    /\ next (parse_line f line) = next f
    /\ messages (parse_line f line) = messages f
    /\ skip_next_line (parse_line f line) = skip_next_line f).
  { unfold parse_line. rewrite decide_False by done. rewrite Hm.
    by destruct (split_1 line) as [[key value]|]. }
  destruct Hstep as (Hm' & Hu & Hs & Hn & Hmsg & Hskip).
  destruct (IH (parse_line f line) Hpre Hm') as (? & ? & ? & ? & ? & ?).
  split_and!; congruence.
Qed.

Lemma unit_row_appended f row u :
  unit_row row u -> mode f = units_section -> skip_next_line f = false ->
  parse_line f row
  = mkFrame (params f) (units f ++ [next f]) units_section false
      (<[next f := u]> (store f)) (S (next f)) (messages f).
Proof.
  intros (Hb & f1 & f2 & f3 & f4 & Hsplit & Ht & Hs & He & Hn & Hbd) Hm Hskip.
  unfold parse_line. rewrite decide_False by done.
  rewrite Hm, Hskip, Hsplit, Ht, Hs, He.
  destruct u as [n t s e b]. simpl in *. by subst.
Qed.

Lemma unit_rows_appended rows us : forall f,
  Forall2 unit_row rows us ->
  mode f = units_section -> skip_next_line f = false ->
  let f' := foldl parse_line f rows in
  params f' = params f
  /\ units f' = units f ++ seq (next f) (length rows)
  /\ next f' = (next f + length rows)%nat
  /\ messages f' = messages f
  /\ (forall k u, us !! k = Some u -> store f' (next f + k)%nat = u)
  /\ (forall l, (l < next f)%nat -> store f' l = store f l).
Proof.
  intros f Hrows. revert f.
  induction Hrows as [|row u rows us Hrow Hrows IH]; intros f Hm Hs.
  - simpl. rewrite app_nil_r, Nat.add_0_r. split_and!; done.
  - simpl. rewrite (unit_row_appended f row u Hrow Hm Hs).
    edestruct IH as (Hp & Hu & Hn & Hmsg & Hnew & Hold);
      [| |rewrite Hp, Hu, Hn, Hmsg]; [done..|].
    simpl in *. rewrite <- app_assoc. split_and!; [done|done|lia|done| |].
    + intros [|k] v Hk; simpl in Hk.
      * injection Hk as ->. rewrite Nat.add_0_r, Hold by lia.
        by rewrite fn_lookup_insert.
      * replace (next f + S k)%nat with (S (next f) + k)%nat by lia.
        by apply Hnew.
    + intros l Hl. rewrite Hold by lia.
      rewrite fn_lookup_insert_ne by lia. done.
Qed.

End LoadCsvLayout.

(** X16.  After an upload the units of the session are named "Unit 1",
    "Unit 2", ... in list order, whatever the file holds: the names in the
    file are not kept, and when the load fails or finds no unit the units
    the session had, distinct dicts, are renamed all the same. *)
Theorem upload_numbers_the_units `{builtins : Csv.Builtins}
    (next : loc) (h : heap) (st : Session.t) (lines : list string) :
  NoDup (Session.units st) ->
  let '(h', st', _) := Csv.upload next h st lines in
  forall k l,
    Session.units st' !! k = Some l -> name (h' l) = unit_name (S k).
Proof.
  intros Hnd. unfold Csv.upload, Csv.load_csv.
  destruct (parse_invariant next h lines) as (Hunits & _).
  destruct (Csv.update_parameters _ st) as [st1 | st1] eqn:Hup.
  - destruct (Csv.units (Csv.parse next h lines)) as [|l0 ls] eqn:Hls.
    + intros k l Hk.
      rewrite (update_parameters_units _ st st1) in * by eauto.
      by rewrite (rename_units_lookup_all _ _ Hnd k l Hk).
    + intros k l Hk. simpl in Hk.
      assert (Hnd' : NoDup (l0 :: ls)) by (rewrite Hunits; apply NoDup_seq).
      by rewrite (rename_units_lookup_all _ _ Hnd' k l Hk).
  - intros k l Hk.
    rewrite (update_parameters_units _ st st1) in * by eauto.
    by rewrite (rename_units_lookup_all _ _ Hnd k l Hk).
Qed.

Lemma upload_numbers_the_units_witness :
  let '(h', st', _) :=
    Csv.upload (builtins := CsvFile.sample_builtins) 2%nat two_records
      CsvFile.sample_session CsvFile.sample_file in
  forall k l,
    Session.units st' !! k = Some l -> name (h' l) = unit_name (S k).
Proof.
  apply (upload_numbers_the_units (builtins := CsvFile.sample_builtins)
           2%nat two_records CsvFile.sample_session CsvFile.sample_file).
  vm_compute. apply NoDup_singleton.
Defined.


(** X18.  The line after a blank line is skipped unread: whatever it
    holds, short of being blank itself, the load gives the same. *)
Theorem line_after_blank_line_is_not_read `{builtins : Csv.Builtins}
    (next : loc) (h : heap) (st : Session.t)
    (before : list string) (blank_line line1 line2 : string)
    (after : list string) :
  CsvFile.blank blank_line ->
  ~ CsvFile.blank line1 -> ~ CsvFile.blank line2 ->
  Csv.load_csv next h st (before ++ blank_line :: line1 :: after)
  = Csv.load_csv next h st (before ++ blank_line :: line2 :: after).
Proof.
  intros Hb H1 H2. apply load_csv_of_parse.
  rewrite !parse_app. cbn [foldl]. f_equal.
  rewrite (parse_line_blank _ blank_line Hb).
  by rewrite !parse_line_header.
Qed.

Lemma line_after_blank_line_is_not_read_witness :
  Csv.load_csv (builtins := CsvFile.sample_builtins) 2%nat two_records
    CsvFile.sample_session
    (["diameter_min,1"] ++ " " :: "name,top" :: ["Sand,0,10,100"])
  = Csv.load_csv (builtins := CsvFile.sample_builtins) 2%nat two_records
      CsvFile.sample_session
      (["diameter_min,1"] ++ " " :: "Clay,5,20,200" :: ["Sand,0,10,100"]).
Proof.
  apply (line_after_blank_line_is_not_read
           (builtins := CsvFile.sample_builtins)).
  - reflexivity.
  - vm_compute. discriminate.
  - vm_compute. discriminate.
Defined.

(** X19.  In the units section a row that does not split into exactly
    four fields at its commas (a name with a comma in it, a missing
    value) is dropped without any message: the load gives the same as
    for the file without the row. *)
Theorem row_without_four_fields_is_dropped `{builtins : Csv.Builtins}
    (next : loc) (h : heap) (st : Session.t)
    (before : list string) (blank_line header : string)
    (rows : list string) (row : string) (after : list string) :
  CsvFile.blank blank_line -> ~ CsvFile.blank header ->
  Forall (fun r => ~ CsvFile.blank r) rows ->
  ~ CsvFile.blank row -> length (Csv.split row) <> 4%nat ->
  Csv.load_csv next h st
    (before ++ blank_line :: header :: rows ++ row :: after)
  = Csv.load_csv next h st
      (before ++ blank_line :: header :: rows ++ after).
Proof.
  intros Hb Hh Hrows Hrow Hlen. apply load_csv_of_parse.
  rewrite !parse_app. cbn [foldl]. rewrite !foldl_app. cbn [foldl]. f_equal.
  rewrite (parse_line_blank _ blank_line Hb).
  rewrite (parse_line_header _ header) by done.
  match goal with
  | |- context [foldl Csv.parse_line ?f rows] =>
      destruct (units_section_rows rows f Hrows) as [Hm Hs]; [done..|]
  end.
  by apply row_ignored.
Qed.

Lemma row_without_four_fields_is_dropped_witness :
  Csv.load_csv (builtins := CsvFile.sample_builtins) 2%nat two_records
    CsvFile.sample_session
    (["diameter_min,1"] ++ "" :: "name,top" :: ["Sand,0,10,100"]
       ++ "Clay, stiff,5,20,200" :: ["Rock,9,30,300"])
  = Csv.load_csv (builtins := CsvFile.sample_builtins) 2%nat two_records
      CsvFile.sample_session
      (["diameter_min,1"] ++ "" :: "name,top" :: ["Sand,0,10,100"]
         ++ ["Rock,9,30,300"]).
Proof.
  apply (row_without_four_fields_is_dropped
           (builtins := CsvFile.sample_builtins)).
  - reflexivity.
  - vm_compute. discriminate.
  - repeat constructor. vm_compute. discriminate.
  - vm_compute. discriminate.
  - vm_compute. discriminate.
Defined.

(** X20.  A file of parameter lines, a blank line, a header and one or
    more rows of four fields with numbers in the last three: unless a
    parameter fails to convert, the load shows no message and replaces the
    units of the session by one new dict per row, in the order of the
    rows, with the row's three numbers and the name "Unit k" in place of
    the row's. *)
Theorem well_formed_file_replaces_the_units `{builtins : Csv.Builtins}
    (next : loc) (h : heap) (st : Session.t)
    (parameter_lines : list string) (blank_line header : string)
    (rows : list string) (records : list Unit) :
  Forall (fun line => ~ CsvFile.blank line) parameter_lines ->
  CsvFile.blank blank_line -> ~ CsvFile.blank header ->
  Forall2 CsvFile.unit_row rows records -> rows <> [] ->
  let '(h', st', shown) :=
    Csv.load_csv next h st
      (parameter_lines ++ blank_line :: header :: rows) in
  Csv.failed_to_load ∉ shown ->
  shown = []
  /\ Session.units st' = seq next (length rows)
  /\ forall k u, records !! k = Some u ->
       h' (next + k)%nat = set_name u (unit_name (S k)).
Proof.
  intros Hpre Hb Hh Hrows Hne. unfold Csv.load_csv.
  rewrite parse_app. cbn [foldl].
  destruct (parameters_section parameter_lines (Csv.start next h) Hpre)
    as (Hm & Hu & Hs & Hn & Hmsg & Hskip); [done|].
  fold (Csv.parse next h parameter_lines) in *.
  set (f0 := Csv.parse next h parameter_lines) in *.
  rewrite (parse_line_blank f0 blank_line Hb).
  rewrite (parse_line_header _ header) by done.
  match goal with
  | |- context [foldl Csv.parse_line ?f rows] =>
      destruct (unit_rows_appended rows records f Hrows)
        as (Hp' & Hu' & Hn' & Hmsg' & Hnew & Hold); [done..|];
      set (f1 := foldl Csv.parse_line f rows) in *
  end.
  simpl in *. rewrite Hu, Hn in Hu'. rewrite Hmsg in Hmsg'.
  rewrite Hn in Hnew. rewrite app_nil_l in Hu'.
  assert (Hnd : NoDup (Csv.units f1)) by (rewrite Hu'; apply NoDup_seq).
  destruct (Csv.update_parameters _ st) as [st1 | st1].
  - destruct (Csv.units f1) as [|l0 ls] eqn:Hls.
    + destruct rows; [done | discriminate].
    + rewrite <- Hls in *. intros _. split_and!; [done..|].
      intros k u Hk.
      rewrite (rename_units_lookup_all _ _ Hnd k).
      * by rewrite (Hnew k u Hk).
      * rewrite Hu'. apply lookup_seq. split; [done|].
        apply lookup_lt_Some in Hk.
        by rewrite (Forall2_length _ _ _ Hrows).
  - intros Hnot. exfalso. apply Hnot.
    rewrite elem_of_app, list_elem_of_singleton. by right.
Qed.

Lemma well_formed_file_replaces_the_units_witness :
  let '(h', st', shown) :=
    Csv.load_csv (builtins := CsvFile.sample_builtins) 2%nat two_records
      CsvFile.sample_session
      (["parameter,value"; "diameter_min,1"; "three_d_embed,True"]
         ++ "" :: "name,top_depth,skin_friction,end_bearing"
         :: ["Sand, 0, 10, 100"; "Clay,5,20,200"]) in
  Csv.failed_to_load ∉ shown ->
  shown = []
  /\ Session.units st' = seq 2 2
  /\ forall k u,
       [mkUnit "Sand" 0 10 100 None; mkUnit "Clay" 5 20 200 None] !! k
       = Some u ->
       h' (2 + k)%nat = set_name u (unit_name (S k)).
Proof.
  apply (well_formed_file_replaces_the_units
           (builtins := CsvFile.sample_builtins) 2%nat two_records
           CsvFile.sample_session
           ["parameter,value"; "diameter_min,1"; "three_d_embed,True"]
           "" "name,top_depth,skin_friction,end_bearing"
           ["Sand, 0, 10, 100"; "Clay,5,20,200"]
           [mkUnit "Sand" 0 10 100 None; mkUnit "Clay" 5 20 200 None]).
  - repeat constructor; vm_compute; discriminate.
  - reflexivity.
  - vm_compute. discriminate.
  - repeat constructor; try (vm_compute; discriminate);
      by eexists _, _, _, _.
  - discriminate.
Defined.

(** X21.  A load never leaves the session without units: the unit list is
    replaced only by a non-empty one, so a session that has a unit still
    has one after [load_csv], whatever the file holds. *)
Theorem load_never_empties_the_units `{builtins : Csv.Builtins}
    (next : loc) (h : heap) (st : Session.t) (lines : list string) :
  Session.units st <> [] ->
  let '(_, st', _) := Csv.load_csv next h st lines in
  Session.units st' <> [].
Proof.
  intros Hne. unfold Csv.load_csv.
  destruct (Csv.update_parameters _ st) as [st1 | st1] eqn:Hup.
  - destruct (Csv.units (Csv.parse next h lines)) as [|l0 ls] eqn:Hls.
    + by rewrite (update_parameters_units _ st st1) by eauto.
    + done.
  - by rewrite (update_parameters_units _ st st1) by eauto.
Qed.

Lemma load_never_empties_the_units_witness :
  let '(_, st', _) :=
    Csv.load_csv (builtins := CsvFile.sample_builtins) 2%nat two_records
      CsvFile.sample_session ["diameter_min,x"; ""; "header"; "a,b,c,d"] in
  Session.units st' <> [].
Proof.
  apply (load_never_empties_the_units
           (builtins := CsvFile.sample_builtins) 2%nat two_records
           CsvFile.sample_session
           ["diameter_min,x"; ""; "header"; "a,b,c,d"]).
  discriminate.
Defined.
